(** * Verification of [tools/convert_logo_raw.py]

    The script centres a logo on a white canvas and writes the canvas as
    raw little-endian [0x00RRGGBB] words.  The development embeds

    - the Python numeric primitives the script uses (binary64 floats, built
      on the Standard Library's executable [SpecFloat] semantics);
    - the Pillow operations it calls ([Image.new], [convert], [resize],
      [paste], pixel access), with the resampling kernel left as a section
      variable;
    - the file system and standard output as an explicit world state;

    and then the two functions of the script, [convert_logo_to_raw] and
    [main], line by line. *)

From stdpp Require Import gmap strings list.
From Stdlib Require Import ZArith QArith Qpower Qminmax Lqa Lia Ascii Floats.SpecFloat.

Local Open Scope Z_scope.

(** * Exceptions and results *)

(** The exceptions the script can raise. *)
Inductive exn :=
| FileNotFoundError       (* [Image.open] on a missing path *)
| UnidentifiedImageError  (* [Image.open] on bytes that are no image *)
| ValueError              (* Pillow: bad size; [int(nan)] *)
| ZeroDivisionError
| OverflowError
| StructError.            (* [struct.pack] out of range *)

Inductive result (A : Type) :=
| Ok (a : A)
| Raise (e : exn).
Arguments Ok {A} a.
Arguments Raise {A} e.

(** Sequencing: the first exception raised aborts the rest. *)
#[global] Instance result_bind : MBind result := fun A B k r =>
  match r with
  | Ok a => k a
  | Raise e => Raise e
  end.

(** * Python floats *)

Module PyFloat.

(** Python's [float] is IEEE 754 binary64. *)
Definition prec : Z := 53.
Definition emax : Z := 1024.

Abbreviation float := spec_float.

(** [float(n)] for an [int]: round to nearest even; [None] stands for
    [OverflowError]. *)
Definition of_int (n : Z) : option float :=
  match binary_normalize prec emax n 0 false with
  | S754_infinity _ | S754_nan => None
  | f => Some f
  end.

(** float [*] float. *)
Definition mul (a b : float) : float := SFmul prec emax a b.

(** [a < b] on floats. *)
Definition ltb (a b : float) : bool := SFltb a b.

(** The builtin [min(a, b)]: the first argument is kept unless the second
    is strictly smaller. *)
Definition min (a b : float) : float := if ltb b a then b else a.

(** The literal [0.8], i.e. the double nearest to 4/5. *)
Definition lit_0_8 : float := S754_finite false 7205759403792794 (-53).

(** [int(f)]: truncation toward zero. *)
Definition to_int (f : float) : result Z :=
  match f with
  | S754_zero _ => Ok 0
  | S754_finite s m e =>
      let a := match e with
               | Zneg p => Z.shiftr (Zpos m) (Zpos p)
               | _ => Z.shiftl (Zpos m) e
               end in
      Ok (if s then - a else a)
  | S754_infinity _ => Raise OverflowError
  | S754_nan => Raise ValueError
  end.

(** An [int] as an unrounded mantissa with exponent 0. *)
Definition raw (n : Z) : float :=
  match n with
  | Z0 => S754_zero false
  | Zpos p => S754_finite false p 0
  | Zneg p => S754_finite true p 0
  end.

(** [a / b] on two [int]s: the correctly rounded quotient. *)
Definition truediv (a b : Z) : result float :=
  if b =? 0 then Raise ZeroDivisionError
  else match SFdiv prec emax (raw a) (raw b) with
       | S754_infinity _ | S754_nan => Raise OverflowError
       | f => Ok f
       end.

(** [n * f] for an [int] [n] and a float [f]: [n] is converted first. *)
Definition int_mul (n : Z) (f : float) : result float :=
  match of_int n with
  | Some fn => Ok (mul fn f)
  | None => Raise OverflowError
  end.

(** The rational value of a finite float. *)
Definition to_Q (f : float) : Q :=
  match f with
  | S754_finite s m e =>
      let a := (inject_Z (Zpos m) * Qpower 2 e)%Q in
      if s then (- a)%Q else a
  | _ => 0%Q
  end.

End PyFloat.

(** * Pillow images

    The part of Pillow (PIL) the script relies on.  An image has a size and a
    pixel accessor; its mode is carried by the pixel type.  Channels are
    8-bit values held in [Z]. *)

Module PIL.

Definition rgb : Type := Z * Z * Z.
Definition rgba : Type := Z * Z * Z * Z.

Record Image (P : Type) := mkImage {
  size : Z * Z;              (* (width, height) *)
  pixel : Z -> Z -> P        (* pixel at column x, row y *)
}.
Arguments mkImage {P} size pixel.
Arguments size {P} i.
Arguments pixel {P} i x y.

(** A decoded file, in one of the 8-bit modes without a palette. *)
Inductive AnyImage :=
| ImL (im : Image Z)
| ImLA (im : Image (Z * Z))
| ImRGB (im : Image rgb)
| ImRGBA (im : Image rgba).

(** [im.mode] *)
Definition mode (a : AnyImage) : string :=
  match a with
  | ImL _ => "L"
  | ImLA _ => "LA"
  | ImRGB _ => "RGB"
  | ImRGBA _ => "RGBA"
  end.

(** [Image.new('RGBA', size, color)]: negative sizes are refused. *)
Definition new (size : Z * Z) (color : rgba) : result (Image rgba) :=
  let '(w, h) := size in
  if (w <? 0) || (h <? 0) then Raise ValueError
  else Ok (mkImage size (fun _ _ => color)).

(** [im.convert('RGBA')]: a missing alpha channel becomes fully opaque. *)
Definition convert_RGBA (a : AnyImage) : Image rgba :=
  match a with
  | ImL im => mkImage (size im) (fun x y => let v := pixel im x y in (v, v, v, 255))
  | ImLA im => mkImage (size im) (fun x y => let '(v, a) := pixel im x y in (v, v, v, a))
  | ImRGB im => mkImage (size im) (fun x y => let '(r, g, b) := pixel im x y in (r, g, b, 255))
  | ImRGBA im => im
  end.

(** [im.convert('RGB')] on an RGBA image: the alpha channel is dropped. *)
Definition convert_RGB (im : Image rgba) : Image rgb :=
  mkImage (size im) (fun x y => let '(r, g, b, _) := pixel im x y in (r, g, b)).

(** Saturation of a resampled channel to 8 bits. *)
Definition clip8 (v : Z) : Z := Z.max 0 (Z.min 255 v).

(** [im.resize(size, Image.Resampling.LANCZOS)].  A request for the size the
    image already has returns a copy; a target width or height below 1 is
    refused; otherwise the image is resampled with the kernel [resample],
    every channel saturated to 8 bits. *)
Definition resize (resample : Image rgba -> Z * Z -> Z -> Z -> rgba)
    (im : Image rgba) (new_size : Z * Z) : result (Image rgba) :=
  let '(w, h) := new_size in
  if bool_decide (size im = new_size) then Ok im
  else if (w <? 1) || (h <? 1) then Raise ValueError
  else Ok (mkImage new_size (fun x y =>
             let '(r, g, b, a) := resample im new_size x y in
             (clip8 r, clip8 g, clip8 b, clip8 a))).

Arguments resize : simpl never.

(** Pillow's [BLEND(mask, in1, in2)]: [in1 * (255 - mask) + in2 * mask],
    divided by 255 with rounding, stored in an 8-bit channel. *)
Definition blend (mask in1 in2 : Z) : Z :=
  let tmp := in1 * (255 - mask) + in2 * mask + 128 in
  Z.land (Z.shiftr (Z.shiftr tmp 8 + tmp) 8) 255.

(** [background.paste(im, (x, y), mask)] with an RGBA mask: inside the
    box every channel of the background is blended with the pasted image,
    weighted by the mask's alpha; outside, the background is untouched. *)
Definition paste (background im : Image rgba) (box : Z * Z) (mask : Image rgba)
    : Image rgba :=
  let '(x, y) := box in
  let '(w, h) := size im in
  mkImage (size background) (fun c r =>
    if (x <=? c) && (c <? x + w) && (y <=? r) && (r <? y + h) then
      let '(r1, g1, b1, a1) := pixel background c r in
      let '(r2, g2, b2, a2) := pixel im (c - x) (r - y) in
      let '(_, _, _, m) := pixel mask (c - x) (r - y) in
      (blend m r1 r2, blend m g1 g2, blend m b1 b2, blend m a1 a2)
    else pixel background c r).

(** [Image.open(path)], up to the decoder [decode]. *)
Definition open (decode : list Z -> option AnyImage)
    (files : gmap string (list Z)) (path : string) : result AnyImage :=
  match files !! path with
  | None => Raise FileNotFoundError
  | Some bytes =>
      match decode bytes with
      | Some im => Ok im
      | None => Raise UnidentifiedImageError
      end
  end.

End PIL.

(** * The world of the script: files and standard output *)

(** What the script prints. *)
Inductive message :=
| Saved (path : string)
| Dimensions (width height : Z)
| FileSize (bytes : Z)
| LogoSize (width height : Z)
| LogoPosition (x y : Z)
| InputNotFound (path : string).

Record world := mkWorld {
  files : gmap string (list Z);
  stdout : list message
}.

(** How a run of the program ends. *)
Inductive outcome :=
| Exit (status : Z)
| Uncaught (e : exn).

(** * The script *)

Module Script.
Import PIL.

(** [range(n)] *)
Definition range (n : Z) : list Z := seqZ 0 n.

(** [struct.pack('<I', v)]: four bytes, least significant first. *)
Definition struct_pack_I (v : Z) : result (list Z) :=
  if (0 <=? v) && (v <? 2 ^ 32) then
    Ok [Z.land v 255; Z.land (Z.shiftr v 8) 255;
        Z.land (Z.shiftr v 16) 255; Z.land (Z.shiftr v 24) 255]
  else Raise StructError.

(** [os.path.join(a, b)] on POSIX paths. *)
Definition ends_with_sep (a : string) : bool :=
  match last (String.list_ascii_of_string a) with
  | Some c => bool_decide (c = "/"%char)
  | None => false
  end.

Definition starts_with_sep (b : string) : bool :=
  match b with
  | String c _ => bool_decide (c = "/"%char)
  | EmptyString => false
  end.

Definition os_path_join (a b : string) : string :=
  if starts_with_sep b then b
  else if bool_decide (a = "") || ends_with_sep a then a +:+ b
  else a +:+ "/" +:+ b.

Section Script.

(** The image decoder behind [Image.open] and the Lanczos kernel behind
    [resize]. *)
Variable decode : list Z -> option AnyImage.
Variable lanczos : Image rgba -> Z * Z -> Z -> Z -> rgba.

(** Line 37: [min(width / logo_width, height / logo_height) * 0.8]. *)
Definition scale_factor (width height logo_width logo_height : Z)
    : result PyFloat.float :=
  a ← PyFloat.truediv width logo_width;
  b ← PyFloat.truediv height logo_height;
  Ok (PyFloat.mul (PyFloat.min a b) PyFloat.lit_0_8).

(** Lines 38-39: [int(logo_width * scale)] and [int(logo_height * scale)]. *)
Definition scaled_size (scale : PyFloat.float) (logo_width logo_height : Z)
    : result (Z * Z) :=
  new_width ← (p ← PyFloat.int_mul logo_width scale; PyFloat.to_int p);
  new_height ← (p ← PyFloat.int_mul logo_height scale; PyFloat.to_int p);
  Ok (new_width, new_height).

(** Lines 32-41: the logo, scaled down when it exceeds the canvas. *)
Definition scale_logo (logo : Image rgba) (width height : Z)
    : result (Image rgba) :=
  let '(logo_width, logo_height) := size logo in
  if (width <? logo_width) || (height <? logo_height) then
    scale ← scale_factor width height logo_width logo_height;
    new_size ← scaled_size scale logo_width logo_height;
    resize lanczos logo new_size
  else Ok logo.

(** What lines 22-51 compute: the flattened canvas, and the size and
    position of the logo on it. *)
Record composition := mkComposition {
  canvas : Image rgb;
  logo_size : Z * Z;
  position : Z * Z
}.

(** Lines 28-29: [if logo.mode != 'RGBA': logo = logo.convert('RGBA')]. *)
Definition ensure_RGBA (logo : AnyImage) : Image rgba :=
  match logo with
  | ImRGBA im => im
  | _ => convert_RGBA logo
  end.

(** Lines 28-51, for a canvas [background] and a decoded logo. *)
Definition compose (background : Image rgba) (logo : AnyImage)
    (width height : Z) : result composition :=
  let logo := ensure_RGBA logo in
  logo ← scale_logo logo width height;
  let '(logo_width, logo_height) := size logo in
  let x := (width - logo_width) / 2 in
  let y := (height - logo_height) / 2 in
  let background := paste background logo (x, y) logo in
  let background := convert_RGB background in
  Ok (mkComposition background (logo_width, logo_height) (x, y)).

(** Lines 57-61: one row of pixels appended to the open file [f]. *)
Fixpoint write_row (pixels : Z -> Z -> rgb) (row : Z) (cols : list Z)
    (f : list Z) : result unit * list Z :=
  match cols with
  | [] => (Ok tt, f)
  | col :: cols =>
      let '(r, g, b) := pixels col row in
      let pixel_value := Z.lor (Z.lor (Z.shiftl r 16) (Z.shiftl g 8)) b in
      match struct_pack_I pixel_value with
      | Ok bytes => write_row pixels row cols (f ++ bytes)
      | Raise e => (Raise e, f)
      end
  end.

(** Lines 56-61: all rows. *)
Fixpoint write_rows (pixels : Z -> Z -> rgb) (rows : list Z) (width : Z)
    (f : list Z) : result unit * list Z :=
  match rows with
  | [] => (Ok tt, f)
  | row :: rows =>
      match write_row pixels row (range width) f with
      | (Ok _, f) => write_rows pixels rows width f
      | (Raise e, f) => (Raise e, f)
      end
  end.

(** [convert_logo_to_raw(input_path, output_path, width, height)]. *)
Definition convert_logo_to_raw (input_path output_path : string)
    (width height : Z) (w : world) : result unit * world :=
  match new (width, height) (255, 255, 255, 255) with
  | Raise e => (Raise e, w)
  | Ok background =>
  match open decode (files w) input_path with
  | Raise e => (Raise e, w)
  | Ok logo =>
  match compose background logo width height with
  | Raise e => (Raise e, w)
  | Ok c =>
      (* [open(output_path, 'wb')] truncates; the loop appends *)
      let '(r, f) := write_rows (pixel (canvas c)) (range height) width [] in
      let w := mkWorld (<[output_path := f]> (files w)) (stdout w) in
      match r with
      | Raise e => (Raise e, w)
      | Ok _ =>
          let file_size := width * height * 4 in
          let '(logo_width, logo_height) := logo_size c in
          let '(x, y) := position c in
          (Ok tt,
           mkWorld (files w)
             (stdout w ++ [Saved output_path; Dimensions width height;
                           FileSize file_size;
                           LogoSize logo_width logo_height;
                           LogoPosition x y]))
      end
  end end end.

(** [main()], run from the directory [script_dir]. *)
Definition main (script_dir : string) (w : world) : outcome * world :=
  let input_path := os_path_join script_dir "arceos.png" in
  let output_path := os_path_join script_dir "logo.raw" in
  if bool_decide (files w !! input_path = None) then
    (Exit 1, mkWorld (files w) (stdout w ++ [InputNotFound input_path]))
  else
    match convert_logo_to_raw input_path output_path 1920 1200 w with
    | (Ok _, w) => (Exit 0, w)
    | (Raise e, w) => (Uncaught e, w)
    end.

End Script.
End Script.


(** * Rounding to nearest even, characterised on integers

    [SpecFloat] rounds with a shift register; the lemmas below relate it to
    plain integer division, in the range where no result is subnormal. *)

Module Rounding.
Import PyFloat.

(** The record [mrs] holds the quotient [N / D] together with the round and
    sticky bits of the remainder. *)
Definition Rep (N D : Z) (mrs : shr_record) : Prop :=
  0 < D /\ 0 <= N /\
  shr_m mrs = N / D /\
  shr_r mrs = (D <=? 2 * (N mod D)) /\
  shr_s mrs = negb (2 * (N mod D) mod D =? 0).

(** Nearest integer to [N / D], ties to even. *)
Definition rne (N D : Z) : Z :=
  let q := N / D in
  let r := N mod D in
  if 2 * r <? D then q
  else if 2 * r =? D then (if Z.even q then q else q + 1)
  else q + 1.

Lemma shr_1_nonneg m r s :
  0 <= m ->
  shr_1 (Build_shr_record m r s) = Build_shr_record (m / 2) (Z.odd m) (r || s).
Proof.
  intros Hm. rewrite <- Z.div2_div.
  destruct m as [|p|p]; [reflexivity| |lia].
  destruct p; reflexivity.
Qed.

Lemma Rep_shr_1 N D mrs : Rep N D mrs -> Rep N (2 * D) (shr_1 mrs).
Proof.
  destruct mrs as [m r s]. intros (HD & HN & Hm & Hr & Hs).
  simpl in Hm, Hr, Hs.
  assert (0 <= m) by (subst m; apply Z.div_pos; lia).
  rewrite shr_1_nonneg by assumption.
  assert (Hq : N / (2 * D) = m / 2).
  { subst m. rewrite (Z.mul_comm 2 D), Z.div_div by lia. reflexivity. }
  assert (Hrem : N mod (2 * D) = N mod D + D * (m mod 2)).
  { subst m. rewrite (Z.mul_comm 2 D). apply Z.rem_mul_r; lia. }
  pose proof (Z.mod_pos_bound N D HD) as Hb.
  assert (Hbit : m mod 2 = if Z.odd m then 1 else 0).
  { rewrite Zmod_odd. reflexivity. }
  unfold Rep; cbn [shr_m shr_r shr_s]. rewrite Hq, Hrem, Hbit.
  split; [lia|]. split; [lia|]. split; [reflexivity|].
  assert (Hsticky : r || s = negb (N mod D =? 0)).
  { rewrite Hr, Hs.
    destruct (Z.leb_spec D (2 * (N mod D))) as [Hle|Hlt]; simpl.
    - destruct (Z.eqb_spec (N mod D) 0); [lia|reflexivity].
    - rewrite (Z.mod_small (2 * (N mod D)) D) by lia.
      destruct (Z.eqb_spec (2 * (N mod D)) 0), (Z.eqb_spec (N mod D) 0);
        simpl; try reflexivity; lia. }
  rewrite Hsticky.
  destruct (Z.odd m).
  - split; [symmetry; apply Z.leb_le; lia|].
    replace (2 * (N mod D + D * 1)) with (2 * (N mod D) + 1 * (2 * D)) by ring.
    rewrite Z.mod_add by lia.
    rewrite (Z.mod_small (2 * (N mod D)) (2 * D)) by lia.
    destruct (Z.eqb_spec (2 * (N mod D)) 0), (Z.eqb_spec (N mod D) 0);
      simpl; try reflexivity; lia.
  - rewrite Z.mul_0_r, Z.add_0_r.
    split; [symmetry; apply Z.leb_gt; lia|].
    rewrite (Z.mod_small (2 * (N mod D)) (2 * D)) by lia.
    destruct (Z.eqb_spec (2 * (N mod D)) 0), (Z.eqb_spec (N mod D) 0);
      simpl; try reflexivity; lia.
Qed.

Lemma Rep_iter_shr N p : forall D mrs,
  Rep N D mrs -> Rep N (D * 2 ^ Zpos p) (iter_pos shr_1 p mrs).
Proof.
  induction p as [p IH|p IH|]; intros D mrs H; simpl iter_pos.
  - apply Rep_shr_1, IH, IH in H.
    replace (D * 2 ^ Zpos p~1) with (2 * D * 2 ^ Zpos p * 2 ^ Zpos p); [exact H|].
    replace (Zpos p~1) with (1 + Zpos p + Zpos p) by lia.
    rewrite !Z.pow_add_r by lia. ring.
  - apply IH, IH in H.
    replace (D * 2 ^ Zpos p~0) with (D * 2 ^ Zpos p * 2 ^ Zpos p); [exact H|].
    replace (Zpos p~0) with (Zpos p + Zpos p) by lia.
    rewrite !Z.pow_add_r by lia. ring.
  - apply Rep_shr_1 in H. replace (D * 2 ^ 1) with (2 * D) by lia. exact H.
Qed.

Lemma round_Rep N D mrs :
  Rep N D mrs ->
  round_nearest_even (shr_m mrs) (loc_of_shr_record mrs) = rne N D.
Proof.
  destruct mrs as [m r s]. intros (HD & HN & Hm & Hr & Hs).
  simpl in Hm, Hr, Hs. unfold rne. cbn [shr_m]. rewrite <- Hm.
  pose proof (Z.mod_pos_bound N D HD) as Hb.
  destruct r, s; simpl; symmetry in Hr, Hs.
  - apply Z.leb_le in Hr. apply negb_true_iff, Z.eqb_neq in Hs.
    destruct (Z.ltb_spec (2 * (N mod D)) D); [lia|].
    destruct (Z.eqb_spec (2 * (N mod D)) D) as [E|]; [|reflexivity].
    rewrite E, Z.mod_same in Hs; lia.
  - apply Z.leb_le in Hr. apply negb_false_iff, Z.eqb_eq in Hs.
    destruct (Z.ltb_spec (2 * (N mod D)) D); [lia|].
    destruct (Z.eqb_spec (2 * (N mod D)) D) as [|NE]; [reflexivity|].
    pose proof (Z.div_mod (2 * (N mod D)) D ltac:(lia)) as E.
    rewrite Hs in E. set (q := 2 * (N mod D) / D) in E.
    assert (0 < q) by nia. assert (q < 2) by nia. nia.
  - apply Z.leb_gt in Hr.
    destruct (Z.ltb_spec (2 * (N mod D)) D); [reflexivity|lia].
  - apply Z.leb_gt in Hr.
    destruct (Z.ltb_spec (2 * (N mod D)) D); [reflexivity|lia].
Qed.

(** [rne] is within one half of the exact quotient. *)
Lemma rne_near N D :
  0 < D -> 2 * N - D <= 2 * D * rne N D <= 2 * N + D.
Proof.
  intros HD. unfold rne.
  pose proof (Z.mod_pos_bound N D HD) as Hb.
  pose proof (Z.div_mod N D ltac:(lia)) as E.
  destruct (Z.ltb_spec (2 * (N mod D)) D); [nia|].
  destruct (Z.eqb_spec (2 * (N mod D)) D); [|nia].
  destruct (Z.even (N / D)); nia.
Qed.

Lemma rne_bounds N D :
  0 < D -> N / D <= rne N D <= N / D + 1.
Proof.
  intros HD. unfold rne.
  destruct (Z.ltb_spec (2 * (N mod D)) D); [lia|].
  destruct (Z.eqb_spec (2 * (N mod D)) D); [|lia].
  destruct (Z.even (N / D)); lia.
Qed.

(** ** Number of binary digits *)

Lemma digits2_size p : digits2_pos p = Pos.size p.
Proof. induction p; simpl; congruence. Qed.

Lemma Zdigits2_bounds p :
  2 ^ (Zdigits2 (Zpos p) - 1) <= Zpos p < 2 ^ Zdigits2 (Zpos p).
Proof.
  simpl. rewrite digits2_size.
  pose proof (Pos.size_gt p) as Hgt. pose proof (Pos.size_le p) as Hle.
  apply Pos2Z.pos_lt_pos in Hgt. apply Pos2Z.pos_le_pos in Hle.
  rewrite Pos2Z.inj_pow in Hgt, Hle.
  replace (Zpos (Pos.size p)) with (1 + (Zpos (Pos.size p) - 1)) in Hle by lia.
  rewrite Z.pow_add_r in Hle by lia. lia.
Qed.

Lemma Zdigits2_unique p k :
  2 ^ (k - 1) <= Zpos p < 2 ^ k -> Zdigits2 (Zpos p) = k.
Proof.
  intros [Hlo Hhi]. pose proof (Zdigits2_bounds p) as [Blo Bhi].
  set (d := Zdigits2 (Zpos p)) in *.
  assert (0 < d) by (subst d; simpl; lia).
  assert (0 < k).
  { destruct (Z.ltb_spec 0 k) as [|Hk]; [assumption|]. exfalso.
    apply Z.le_lteq in Hk as [Hk| ->].
    - rewrite Z.pow_neg_r in Hhi by assumption. lia.
    - simpl in Hhi. lia. }
  assert (d - 1 < k) by (apply (Z.pow_lt_mono_r_iff 2); lia).
  assert (k - 1 < d) by (apply (Z.pow_lt_mono_r_iff 2); lia).
  lia.
Qed.

(** ** [binary_round_aux] in the normal range *)

(** The float with mantissa [m] and exponent [e], or infinity when the
    exponent is out of range. *)
Definition pack (m e : Z) : float :=
  match m with
  | Zpos p => if e <=? emax - prec then S754_finite false p e
              else S754_infinity false
  | Z0 => S754_zero false
  | Zneg _ => S754_nan
  end.

Lemma Rep_shr N D mrs e n :
  0 <= n -> Rep N D mrs ->
  Rep N (D * 2 ^ n) (fst (shr mrs e n)) /\ snd (shr mrs e n) = e + n.
Proof.
  intros Hn H. destruct n as [|p|p]; [| |lia]; simpl.
  - rewrite Z.mul_1_r, Z.add_0_r. auto.
  - split; [|reflexivity]. apply (Rep_iter_shr N p D mrs H).
Qed.

Lemma rne_range N D mx n :
  0 < D -> 0 <= n -> N / D = Zpos mx -> Zdigits2 (Zpos mx) = prec + n ->
  2 ^ (prec - 1) <= rne N (D * 2 ^ n) <= 2 ^ prec.
Proof.
  intros HD Hn Hq Hd.
  pose proof (Zdigits2_bounds mx) as [Blo Bhi]. rewrite Hd in Blo, Bhi.
  assert (0 < 2 ^ n) by (apply Z.pow_pos_nonneg; lia).
  pose proof (rne_bounds N (D * 2 ^ n) ltac:(nia)) as Hb.
  rewrite <- Z.div_div, Hq in Hb by lia.
  replace (prec + n - 1) with (prec - 1 + n) in Blo by lia.
  rewrite Z.pow_add_r in Blo, Bhi by (unfold prec; lia).
  assert (2 ^ (prec - 1) <= Zpos mx / 2 ^ n).
  { apply Z.div_le_lower_bound; lia. }
  assert (Zpos mx / 2 ^ n < 2 ^ prec).
  { apply Z.div_lt_upper_bound; lia. }
  lia.
Qed.

Theorem round_aux_normal N D mx ex lx :
  Rep N D (shr_record_of_loc (Zpos mx) lx) ->
  prec <= Zdigits2 (Zpos mx) ->
  emin prec emax <= Zdigits2 (Zpos mx) + ex - prec ->
  let n := Zdigits2 (Zpos mx) - prec in
  let m := rne N (D * 2 ^ n) in
  binary_round_aux prec emax false (Zpos mx) ex lx =
    if m <? 2 ^ prec then pack m (ex + n)
    else pack (2 ^ (prec - 1)) (ex + n + 1).
Proof.
  intros HRep Hd He n m.
  assert (Hn : 0 <= n) by (subst n; lia).
  unfold binary_round_aux, shr_fexp.
  replace (fexp prec emax (Zdigits2 (Zpos mx) + ex) - ex) with n
    by (unfold fexp; subst n; lia).
  destruct (Rep_shr N D _ ex n Hn HRep) as [HR He'].
  destruct (shr (shr_record_of_loc (Zpos mx) lx) ex n) as [mrs' e'].
  simpl in HR, He'. subst e'.
  rewrite (round_Rep _ _ _ HR). fold m.
  assert (Hq : N / D = Zpos mx).
  { destruct HRep as (_ & _ & Hm & _). rewrite <- Hm. destruct lx as [|[]]; reflexivity. }
  assert (HD : 0 < D) by apply HRep.
  pose proof (rne_range N D mx n HD Hn Hq ltac:(subst n; lia)) as Hm.
  fold m in Hm. clearbody m.
  destruct (Z.ltb_spec m (2 ^ prec)) as [Hlt|Hge].
  - assert (0 < 2 ^ (prec - 1)) by reflexivity.
    destruct m as [|pm|pm]; [lia| |lia].
    assert (Hdm : Zdigits2 (Zpos pm) = prec) by (apply Zdigits2_unique; lia).
    rewrite Hdm.
    replace (fexp prec emax (prec + (ex + n)) - (ex + n)) with 0
      by (unfold fexp; subst n; lia).
    reflexivity.
  - assert (Hm2 : m = 2 ^ prec) by lia. rewrite Hm2.
    replace (fexp prec emax (Zdigits2 (2 ^ prec) + (ex + n)) - (ex + n)) with 1.
    + reflexivity.
    + change (Zdigits2 (2 ^ prec)) with (prec + 1). unfold fexp. subst n. lia.
Qed.

(** The rounded mantissa is within relative distance [2^-prec] of the
    exact quotient. *)
Lemma rne_rel N D mx n :
  0 < D -> 0 <= N -> 0 <= n ->
  N / D = Zpos mx -> Zdigits2 (Zpos mx) = prec + n ->
  (2 ^ prec - 1) * N <= 2 ^ prec * (D * 2 ^ n * rne N (D * 2 ^ n))
    <= (2 ^ prec + 1) * N.
Proof.
  intros HD HN Hn Hq Hd.
  pose proof (Zdigits2_bounds mx) as [Blo _]. rewrite Hd in Blo.
  replace (prec + n - 1) with (prec - 1 + n) in Blo by lia.
  rewrite Z.pow_add_r in Blo by (unfold prec; lia).
  assert (H2n : 0 < 2 ^ n) by (apply Z.pow_pos_nonneg; lia).
  pose proof (Z.mul_div_le N D HD) as Hfloor. rewrite Hq in Hfloor.
  assert (HD' : 0 < D * 2 ^ n) by nia.
  pose proof (rne_near N (D * 2 ^ n) HD') as Hnear.
  set (D' := D * 2 ^ n) in *. set (Y := D' * rne N D') in *.
  replace (2 * D' * rne N D') with (2 * Y) in Hnear by (subst Y; ring).
  assert (HN' : 2 ^ (prec - 1) * D' <= N).
  { subst D'. change (2 ^ (prec - 1)) with 4503599627370496 in *. nia. }
  change (2 ^ prec) with 9007199254740992.
  change (2 ^ (prec - 1)) with 4503599627370496 in HN'. lia.
Qed.

(** ** Values as rationals *)

Definition pow2 (e : Z) : Q := Qpower 2 e.

(** The unit roundoff [2^-53]. *)
Definition u : Q := 1 # (2 ^ 53).

Lemma pow2_pos e : (0 < pow2 e)%Q.
Proof. apply Qpower_0_lt. reflexivity. Qed.

Lemma pow2_add a b : (pow2 (a + b) == pow2 a * pow2 b)%Q.
Proof. apply Qpower_plus. discriminate. Qed.

Lemma pow2_Z k : 0 <= k -> (pow2 k == inject_Z (2 ^ k))%Q.
Proof. intros. unfold pow2. rewrite Zpower_Qpower by assumption. reflexivity. Qed.

Lemma to_Q_finite m e :
  to_Q (S754_finite false m e) = (inject_Z (Zpos m) * pow2 e)%Q.
Proof. reflexivity. Qed.

(** A positive float with a full 53-bit mantissa and an exponent in
    [[lo, hi]]. *)
Definition normal (lo hi : Z) (f : float) : Prop :=
  exists m e, f = S754_finite false m e /\
              2 ^ (prec - 1) <= Zpos m < 2 ^ prec /\ lo <= e <= hi.

Theorem round_aux_value N D mx ex lx :
  Rep N D (shr_record_of_loc (Zpos mx) lx) ->
  prec <= Zdigits2 (Zpos mx) ->
  emin prec emax <= Zdigits2 (Zpos mx) + ex - prec ->
  Zdigits2 (Zpos mx) + ex + 1 <= emax ->
  let n := Zdigits2 (Zpos mx) - prec in
  let f := binary_round_aux prec emax false (Zpos mx) ex lx in
  normal (ex + n) (ex + n + 1) f /\
  ((1 - u) * (inject_Z N * pow2 ex) <= to_Q f * inject_Z D
     <= (1 + u) * (inject_Z N * pow2 ex))%Q.
Proof.
  intros HRep Hd Hlo Hhi n f.
  assert (Hn : 0 <= n) by (subst n; lia).
  assert (Hq : N / D = Zpos mx).
  { destruct HRep as (_ & _ & Hm & _). rewrite <- Hm. destruct lx as [|[]]; reflexivity. }
  assert (HD : 0 < D) by apply HRep.
  assert (HN : 0 <= N) by apply HRep.
  pose proof (rne_range N D mx n HD Hn Hq ltac:(subst n; lia)) as Hm.
  pose proof (rne_rel N D mx n HD HN Hn Hq ltac:(subst n; lia)) as Hrel.
  subst f. rewrite (round_aux_normal N D mx ex lx HRep Hd Hlo). fold n.
  set (m := rne N (D * 2 ^ n)) in *. clearbody m.
  assert (Hval : forall f', (to_Q f' == inject_Z m * pow2 (ex + n) ->
    (1 - u) * (inject_Z N * pow2 ex) <= to_Q f' * inject_Z D
      <= (1 + u) * (inject_Z N * pow2 ex))%Q).
  { intros f' Hf. rewrite Hf, pow2_add, (pow2_Z n Hn).
    pose proof (pow2_pos ex) as HE.
    destruct Hrel as [R1 R2].
    change (2 ^ prec - 1) with 9007199254740991 in R1.
    change (2 ^ prec + 1) with 9007199254740993 in R2.
    change (2 ^ prec) with 9007199254740992 in R1, R2.
    rewrite Zle_Qle in R1, R2. rewrite !inject_Z_mult in R1, R2.
    change (inject_Z 9007199254740991) with (9007199254740991 # 1)%Q in R1.
    change (inject_Z 9007199254740992) with (9007199254740992 # 1)%Q in R1, R2.
    change (inject_Z 9007199254740993) with (9007199254740993 # 1)%Q in R2.
    apply (Qmult_le_compat_r _ _ (pow2 ex)) in R1; [|lra].
    apply (Qmult_le_compat_r _ _ (pow2 ex)) in R2; [|lra].
    unfold u. change (2 ^ 53)%positive with 9007199254740992%positive.
    split; lra. }
  assert (P1 : 0 < 2 ^ (prec - 1)) by reflexivity.
  destruct (Z.ltb_spec m (2 ^ prec)) as [Hlt|Hge].
  - destruct m as [|pm|pm]; [lia| |lia]. unfold pack.
    destruct (Z.leb_spec (ex + n) (emax - prec)); [|subst n; lia].
    split; [exists pm, (ex + n); repeat split; lia|].
    apply Hval. reflexivity.
  - assert (m = 2 ^ prec) as -> by lia.
    change (pack (2 ^ (prec - 1)) (ex + n + 1)) with
      (if ex + n + 1 <=? emax - prec
       then S754_finite false 4503599627370496 (ex + n + 1)
       else S754_infinity false).
    destruct (Z.leb_spec (ex + n + 1) (emax - prec)); [|subst n; lia].
    split; [eexists _, _; split; [reflexivity|]; split; [split; reflexivity|lia]|].
    apply Hval. rewrite to_Q_finite, !pow2_add.
    change (pow2 1) with (2 # 1)%Q.
    change (inject_Z (2 ^ prec)) with (9007199254740992 # 1)%Q.
    change (inject_Z (Zpos 4503599627370496)) with (4503599627370496 # 1)%Q.
    lra.
Qed.

(** ** Division of two [int]s *)

Lemma new_location_Rep N D :
  0 < D -> 0 <= N ->
  Rep N D (shr_record_of_loc (N / D) (new_location D (N mod D))).
Proof.
  intros HD HN. pose proof (Z.mod_pos_bound N D HD) as Hb.
  set (r := N mod D) in *.
  assert (Hcase :
    forall l, match l with
              | loc_Exact => r = 0
              | loc_Inexact Lt => 0 < 2 * r < D
              | loc_Inexact Eq => 2 * r = D
              | loc_Inexact Gt => D < 2 * r
              end ->
    Rep N D (shr_record_of_loc (N / D) l)).
  { intros l Hl. unfold Rep. fold r. clearbody r.
    split; [assumption|]. split; [assumption|].
    destruct l as [|[]]; cbn [shr_record_of_loc shr_m shr_r shr_s];
      (split; [reflexivity|]).
    - subst r. split; [symmetry; apply Z.leb_gt; lia|reflexivity].
    - rewrite Hl, Z.mod_same by lia.
      split; [symmetry; apply Z.leb_le; lia|reflexivity].
    - rewrite (Z.mod_small (2 * r) D) by lia.
      split; [symmetry; apply Z.leb_gt; lia|].
      destruct (Z.eqb_spec (2 * r) 0); [lia|reflexivity].
    - split; [symmetry; apply Z.leb_le; lia|].
      replace (2 * r) with (2 * r - D + 1 * D) by ring.
      rewrite Z.mod_add, Z.mod_small by lia.
      destruct (Z.eqb_spec (2 * r - D) 0); [lia|reflexivity]. }
  apply Hcase. unfold new_location.
  destruct (Z.even D) eqn:Heven.
  - unfold new_location_even.
    destruct (Z.eqb_spec r 0); [assumption|].
    destruct (Z.compare_spec (2 * r) D); lia.
  - unfold new_location_odd.
    destruct (Z.eqb_spec r 0); [assumption|].
    assert (2 * r <> D).
    { intros E. rewrite <- E, Z.even_mul in Heven. discriminate. }
    destruct (Z.compare_spec (2 * r + 1) D); lia.
Qed.

Lemma Zdigits2_small p k :
  0 < k -> Zpos p < 2 ^ k -> 1 <= Zdigits2 (Zpos p) <= k.
Proof.
  intros Hk Hp. pose proof (Zdigits2_bounds p) as [Blo _].
  set (d := Zdigits2 (Zpos p)) in *.
  assert (0 < d) by (subst d; simpl; lia).
  assert (d - 1 < k) by (apply (Z.pow_lt_mono_r_iff 2); lia).
  lia.
Qed.

Theorem truediv_normal a b :
  0 < a < 2 ^ 31 -> 0 < b < 2 ^ 31 ->
  exists f, truediv a b = Ok f /\ normal (-83) (-21) f /\
    ((1 - u) * inject_Z a <= to_Q f * inject_Z b <= (1 + u) * inject_Z a)%Q.
Proof.
  intros Ha Hb.
  destruct a as [|pa|pa]; [lia| |lia]. destruct b as [|pb|pb]; [lia| |lia].
  unfold truediv. cbn [Z.eqb raw SFdiv xorb]. unfold SFdiv_core_binary.
  pose proof (Zdigits2_small pa 31 ltac:(lia) ltac:(lia)) as Hda.
  pose proof (Zdigits2_small pb 31 ltac:(lia) ltac:(lia)) as Hdb.
  pose proof (Zdigits2_bounds pa) as Ba. pose proof (Zdigits2_bounds pb) as Bb.
  set (d1 := Zdigits2 (Zpos pa)) in *. set (d2 := Zdigits2 (Zpos pb)) in *.
  replace (Z.min (fexp prec emax (d1 + 0 - (d2 + 0))) (0 - 0))
    with (d1 - d2 - prec) by (unfold fexp, emin, prec, emax; lia).
  set (e' := d1 - d2 - prec).
  assert (Hs : 0 < 0 - 0 - e') by (subst e'; unfold prec; lia).
  destruct (0 - 0 - e') as [|ps|ps] eqn:Es; [lia| |lia].
  rewrite Z.shiftl_mul_pow2 by lia. rewrite <- Es.
  set (N := Zpos pa * 2 ^ (0 - 0 - e')).
  assert (Hdm : Z.div_eucl N (Zpos pb) = (N / Zpos pb, N mod Zpos pb)).
  { unfold Z.div, Z.modulo. destruct (Z.div_eucl N (Zpos pb)); reflexivity. }
  rewrite Hdm.
  (* the quotient has 53 or 54 digits *)
  assert (Epow : 2 ^ (0 - 0 - e') * 2 ^ (d1 - 1) = 2 ^ (prec - 1) * 2 ^ d2).
  { rewrite <- !Z.pow_add_r by (subst e'; unfold prec; lia).
    f_equal. subst e'. lia. }
  assert (P1 : 0 < 2 ^ (0 - 0 - e')) by (apply Z.pow_pos_nonneg; lia).
  assert (P2 : 0 < 2 ^ (d1 - 1)) by (apply Z.pow_pos_nonneg; lia).
  assert (P3 : 0 < 2 ^ (prec - 1)) by reflexivity.
  assert (Hqlo : 2 ^ (prec - 1) <= N / Zpos pb).
  { apply Z.div_le_lower_bound; [lia|]. subst N. nia. }
  assert (Hqhi : N / Zpos pb < 2 ^ (prec + 1)).
  { apply Z.div_lt_upper_bound; [lia|]. subst N.
    replace (2 ^ (prec + 1)) with (4 * 2 ^ (prec - 1)) by reflexivity.
    replace (2 ^ d1) with (2 * 2 ^ (d1 - 1)) in Ba
      by (rewrite <- (Z.pow_succ_r 2 (d1 - 1)) by lia; f_equal; lia).
    replace (2 ^ d2) with (2 * 2 ^ (d2 - 1)) in Epow
      by (rewrite <- (Z.pow_succ_r 2 (d2 - 1)) by lia; f_equal; lia).
    nia. }
  destruct (N / Zpos pb) as [|pq|pq] eqn:Eq; [lia| |lia].
  assert (Hdq : prec <= Zdigits2 (Zpos pq) <= prec + 1).
  { pose proof (Zdigits2_bounds pq) as [Bl Bh].
    pose proof (Zdigits2_small pq (prec + 1) ltac:(unfold prec; lia) Hqhi).
    split; [|lia].
    assert (prec - 1 < Zdigits2 (Zpos pq)); [|lia].
    apply (Z.pow_lt_mono_r_iff 2); lia. }
  assert (HRep : Rep N (Zpos pb)
            (shr_record_of_loc (Zpos pq) (new_location (Zpos pb) (N mod Zpos pb)))).
  { rewrite <- Eq. apply new_location_Rep; subst N; lia. }
  destruct (round_aux_value N (Zpos pb) pq e' _ HRep) as [Hnorm Hval].
  { lia. }
  { subst e'. unfold emin, prec, emax in *. lia. }
  { subst e'. unfold prec, emax in *. lia. }
  set (f := binary_round_aux prec emax false (Zpos pq) e'
              (new_location (Zpos pb) (N mod Zpos pb))) in *.
  destruct Hnorm as (m & e & Hf & Hm & He).
  exists f. rewrite Hf. split; [reflexivity|].
  split.
  - exists m, e. split; [reflexivity|]. split; [assumption|].
    subst e'. unfold prec in *. lia.
  - rewrite <- Hf.
    assert (EN : (inject_Z N * pow2 e' == inject_Z (Zpos pa))%Q).
    { subst N. rewrite inject_Z_mult, <- pow2_Z by lia.
      rewrite <- Qmult_assoc, <- pow2_add.
      replace (0 - 0 - e' + e') with 0 by lia.
      change (pow2 0) with 1%Q. ring. }
    rewrite EN in Hval. exact Hval.
Qed.

(** ** Conversion of an [int] *)

Lemma rne_1 N : rne N 1 = N.
Proof.
  unfold rne. rewrite Z.mod_1_r, Z.div_1_r. reflexivity.
Qed.

Theorem of_int_exact n :
  0 < n < 2 ^ 31 ->
  exists f, of_int n = Some f /\ normal (-52) (-22) f /\
            (to_Q f == inject_Z n)%Q.
Proof.
  intros Hn. destruct n as [|p|p]; [lia| |lia].
  unfold of_int, binary_normalize, binary_round, shl_align.
  pose proof (Zdigits2_small p 31 ltac:(lia) ltac:(lia)) as Hd.
  pose proof (Zdigits2_bounds p) as Bp.
  change (Zpos (digits2_pos p)) with (Zdigits2 (Zpos p)).
  set (d := Zdigits2 (Zpos p)) in *.
  replace (fexp prec emax (d + 0) - 0) with (d - prec)
    by (unfold fexp, emin, prec, emax; lia).
  replace (fexp prec emax (d + 0)) with (d - prec)
    by (unfold fexp, emin, prec, emax; lia).
  destruct (d - prec) as [|k|k] eqn:Ek; [unfold prec in Ek; lia|unfold prec in Ek; lia|].
  fold (shift_pos k p).
  assert (Hmz : Zpos (shift_pos k p) = Zpos p * 2 ^ Zpos k).
  { rewrite shift_pos_correct, Z.pow_pos_fold. ring. }
  assert (Epow : 2 ^ Zpos k * 2 ^ (d - 1) = 2 ^ (prec - 1)).
  { rewrite <- Z.pow_add_r by lia. f_equal. lia. }
  assert (P1 : 0 < 2 ^ Zpos k) by (apply Z.pow_pos_nonneg; lia).
  replace (2 ^ d) with (2 * 2 ^ (d - 1)) in Bp
    by (rewrite <- (Z.pow_succ_r 2 (d - 1)) by lia; f_equal; lia).
  assert (Hrange : 2 ^ (prec - 1) <= Zpos (shift_pos k p) < 2 ^ prec).
  { rewrite Hmz. change (2 ^ prec) with (2 * 2 ^ (prec - 1)). nia. }
  assert (Hdz : Zdigits2 (Zpos (shift_pos k p)) = prec)
    by (apply Zdigits2_unique; exact Hrange).
  assert (HRep : Rep (Zpos (shift_pos k p)) 1
            (shr_record_of_loc (Zpos (shift_pos k p)) loc_Exact)).
  { unfold Rep. cbn [shr_record_of_loc shr_m shr_r shr_s].
    rewrite Z.div_1_r, Z.mod_1_r. repeat split; lia. }
  rewrite (round_aux_normal _ 1 _ (Zneg k) loc_Exact HRep);
    [|lia|rewrite Hdz; unfold emin, prec, emax in *; lia].
  rewrite Hdz, Z.sub_diag, Z.mul_1_l, rne_1.
  destruct (Z.ltb_spec (Zpos (shift_pos k p)) (2 ^ prec)); [|lia].
  unfold pack. rewrite Z.add_0_r.
  destruct (Z.leb_spec (Zneg k) (emax - prec)); [|unfold prec, emax in *; lia].
  eexists. split; [reflexivity|]. split.
  - eexists _, _. split; [reflexivity|]. split; [exact Hrange|].
    unfold prec in *. lia.
  - rewrite to_Q_finite, Hmz, inject_Z_mult, <- pow2_Z by lia.
    rewrite <- Qmult_assoc, <- pow2_add.
    replace (Zpos k + Zneg k) with 0 by lia.
    change (pow2 0) with 1%Q. ring.
Qed.

(** ** Product of two floats *)

Theorem mul_normal lo1 hi1 lo2 hi2 x y :
  normal lo1 hi1 x -> normal lo2 hi2 y ->
  emin prec emax <= lo1 + lo2 + 52 -> hi1 + hi2 + 107 <= emax ->
  normal (lo1 + lo2 + 52) (hi1 + hi2 + 54) (mul x y) /\
  ((1 - u) * (to_Q x * to_Q y) <= to_Q (mul x y)
     <= (1 + u) * (to_Q x * to_Q y))%Q.
Proof.
  intros (mx & ex & -> & Hmx & Hex) (my & ey & -> & Hmy & Hey) Hlo Hhi.
  unfold mul. cbn [SFmul xorb].
  change (Zpos (mx * my)) with (Zpos mx * Zpos my) in *.
  assert (HP : 2 ^ 104 <= Zpos (mx * my) < 2 ^ 106).
  { change (2 ^ (prec - 1)) with (2 ^ 52) in *.
    change (2 ^ prec) with (2 ^ 53) in *.
    change (2 ^ 104) with (2 ^ 52 * 2 ^ 52).
    change (2 ^ 106) with (2 ^ 53 * 2 ^ 53).
    rewrite Pos2Z.inj_mul. nia. }
  assert (Hd : 105 <= Zdigits2 (Zpos (mx * my)) <= 106).
  { pose proof (Zdigits2_bounds (mx * my)) as [Bl Bh].
    pose proof (Zdigits2_small (mx * my) 106 ltac:(lia) ltac:(lia)).
    split; [|lia].
    assert (104 < Zdigits2 (Zpos (mx * my))); [|lia].
    apply (Z.pow_lt_mono_r_iff 2); lia. }
  assert (HRep : Rep (Zpos (mx * my)) 1
            (shr_record_of_loc (Zpos (mx * my)) loc_Exact)).
  { unfold Rep. cbn [shr_record_of_loc shr_m shr_r shr_s].
    rewrite Z.div_1_r, Z.mod_1_r. repeat split; lia. }
  destruct (round_aux_value _ 1 (mx * my) (ex + ey) loc_Exact HRep)
    as [Hnorm Hval].
  { unfold prec. lia. }
  { unfold emin, prec, emax in *. lia. }
  { unfold prec, emax in *. lia. }
  split.
  - destruct Hnorm as (m & e & Hf & Hm & He).
    exists m, e. split; [exact Hf|]. split; [exact Hm|].
    unfold prec in *. lia.
  - rewrite !to_Q_finite.
    rewrite Pos2Z.inj_mul, inject_Z_mult, pow2_add in Hval.
    change (inject_Z 1) with 1%Q in Hval.
    set (V := to_Q _) in *. clearbody V.
    setoid_replace (inject_Z (Zpos mx) * pow2 ex * (inject_Z (Zpos my) * pow2 ey))%Q
      with (inject_Z (Zpos mx) * inject_Z (Zpos my) * (pow2 ex * pow2 ey))%Q
      using relation Qeq by ring.
    rewrite Qmult_1_r in Hval. exact Hval.
Qed.

(** ** Comparison and [min] *)

Lemma value_lt_exponent m1 e1 m2 e2 :
  2 ^ (prec - 1) <= Zpos m1 < 2 ^ prec ->
  2 ^ (prec - 1) <= Zpos m2 < 2 ^ prec ->
  e1 < e2 ->
  (inject_Z (Zpos m1) * pow2 e1 < inject_Z (Zpos m2) * pow2 e2)%Q.
Proof.
  intros [_ H1] [H2 _] He.
  replace e2 with (e1 + (e2 - e1)) by lia.
  rewrite pow2_add, (pow2_Z (e2 - e1)) by lia.
  assert (HK : 2 <= 2 ^ (e2 - e1)).
  { change 2 with (2 ^ 1) at 1. apply Z.pow_le_mono_r; lia. }
  assert (HM : Zpos m1 < 2 * Zpos m2).
  { change (2 ^ prec) with (2 * 2 ^ (prec - 1)) in H1. lia. }
  rewrite Zle_Qle in HK. rewrite Zlt_Qlt, inject_Z_mult in HM.
  change (inject_Z 2) with (2 # 1)%Q in HK, HM.
  pose proof (pow2_pos e1) as HP.
  set (K := inject_Z (2 ^ (e2 - e1))) in *.
  set (M1 := inject_Z (Zpos m1)) in *. set (M2 := inject_Z (Zpos m2)) in *.
  assert (0 < M2)%Q by (subst M2; rewrite <- (Zlt_Qlt 0); lia).
  apply Qlt_le_trans with ((2 # 1) * M2 * pow2 e1)%Q.
  - apply Qmult_lt_compat_r; assumption.
  - setoid_replace (M2 * (pow2 e1 * K))%Q with (K * (M2 * pow2 e1))%Q
      using relation Qeq by ring.
    setoid_replace ((2 # 1) * M2 * pow2 e1)%Q with ((2 # 1) * (M2 * pow2 e1))%Q
      using relation Qeq by ring.
    apply Qmult_le_compat_r; [assumption|].
    apply Qlt_le_weak, Qmult_lt_0_compat; assumption.
Qed.

Lemma ltb_normal lo1 hi1 lo2 hi2 x y :
  normal lo1 hi1 x -> normal lo2 hi2 y ->
  if ltb y x then (to_Q y < to_Q x)%Q else (to_Q x <= to_Q y)%Q.
Proof.
  intros (mx & ex & -> & Hmx & _) (my & ey & -> & Hmy & _).
  unfold ltb, SFltb. cbn [SFcompare]. rewrite !to_Q_finite.
  destruct (Z.compare_spec ey ex) as [->|Hlt|Hgt].
  - change (Pos.compare_cont Eq my mx) with (Pos.compare my mx).
    pose proof (pow2_pos ex) as HP.
    destruct (Pos.compare_spec my mx) as [->|H|H].
    + apply Qle_refl.
    + apply Qmult_lt_compat_r; [assumption|].
      rewrite <- Zlt_Qlt. lia.
    + apply Qmult_le_compat_r; [|lra].
      rewrite <- Zle_Qle. lia.
  - apply value_lt_exponent; assumption.
  - apply Qlt_le_weak, value_lt_exponent; assumption.
Qed.

Lemma min_normal lo hi x y :
  normal lo hi x -> normal lo hi y ->
  normal lo hi (min x y) /\
  (to_Q (min x y) <= to_Q x)%Q /\ (to_Q (min x y) <= to_Q y)%Q /\
  (min x y = x \/ min x y = y).
Proof.
  intros Hx Hy. pose proof (ltb_normal _ _ _ _ x y Hx Hy) as H.
  unfold min. destruct (ltb y x).
  - repeat split; [assumption|lra|lra|auto].
  - repeat split; [assumption|lra|lra|auto].
Qed.

(** ** Truncation *)

(** [z] is [q] with its fractional part dropped. *)
Definition truncation (q : Q) (z : Z) : Prop :=
  ((0 <= q -> inject_Z z <= q < inject_Z z + 1) /\
   (q <= 0 -> inject_Z z - 1 < q <= inject_Z z))%Q.

Lemma magnitude_floor m e :
  let a := match e with
           | Zneg p => Z.shiftr (Zpos m) (Zpos p)
           | _ => Z.shiftl (Zpos m) e
           end in
  0 <= a /\ (inject_Z a <= inject_Z (Zpos m) * pow2 e < inject_Z a + 1)%Q.
Proof.
  destruct e as [|pe|pe]; cbv zeta.
  - rewrite Z.shiftl_0_r. change (pow2 0) with 1%Q. split; [lia|]. split; lra.
  - rewrite Z.shiftl_mul_pow2 by lia.
    rewrite pow2_Z, inject_Z_mult by lia. split; [nia|]. split; lra.
  - rewrite Z.shiftr_div_pow2 by lia.
    assert (P : 0 < 2 ^ Zpos pe) by (apply Z.pow_pos_nonneg; lia).
    pose proof (Z.mul_div_le (Zpos m) _ P) as Hle.
    pose proof (Z.mul_succ_div_gt (Zpos m) _ P) as Hgt.
    split; [apply Z.div_pos; lia|].
    rewrite Zle_Qle, inject_Z_mult in Hle.
    rewrite Zlt_Qlt, inject_Z_mult in Hgt.
    unfold Z.succ in Hgt. rewrite inject_Z_plus in Hgt.
    rewrite <- pow2_Z in Hle, Hgt by lia.
    assert (E : (pow2 (Zneg pe) * pow2 (Zpos pe) == 1)%Q).
    { rewrite <- pow2_add. replace (Zneg pe + Zpos pe) with 0 by lia. reflexivity. }
    pose proof (pow2_pos (Zpos pe)) as HP.
    set (z := inject_Z (Zpos m / 2 ^ Zpos pe)) in *.
    set (M := inject_Z (Zpos m)) in *.
    split.
    + apply (Qmult_le_r _ _ (pow2 (Zpos pe))); [assumption|].
      rewrite <- Qmult_assoc, E. lra.
    + apply (Qmult_lt_r _ _ (pow2 (Zpos pe))); [assumption|].
      rewrite <- Qmult_assoc, E. change (inject_Z 1) with 1%Q in Hgt. lra.
Qed.

(** [int(f)] truncates toward zero. *)
Theorem to_int_truncation f z :
  to_int f = Ok z -> truncation (to_Q f) z.
Proof.
  unfold truncation. destruct f as [s|s| |s m e]; simpl; try discriminate.
  - intros [= <-]. change (inject_Z 0) with 0%Q. split; intros; split; lra.
  - pose proof (magnitude_floor m e) as (Ha & Hlo & Hhi). cbv zeta in *.
    pose proof (pow2_pos e) as HP.
    assert (HM : (0 < inject_Z (Zpos m) * pow2 e)%Q).
    { apply Qmult_lt_0_compat; [|assumption].
      change 0%Q with (inject_Z 0). rewrite <- Zlt_Qlt. lia. }
    fold (pow2 e).
    set (a := match e with
              | Zneg p => Z.shiftr (Zpos m) (Zpos p)
              | _ => Z.shiftl (Zpos m) e
              end) in *.
    destruct s; intros [= <-].
    + rewrite inject_Z_opp. split; intros; split; lra.
    + split; intros; split; lra.
Qed.

Lemma to_int_floor lo hi f :
  normal lo hi f ->
  exists z, to_int f = Ok z /\ 0 <= z /\
            (inject_Z z <= to_Q f)%Q /\ (to_Q f < inject_Z z + 1)%Q.
Proof.
  intros (m & e & -> & _ & _). rewrite to_Q_finite.
  pose proof (magnitude_floor m e) as (Ha & Hlo & Hhi).
  eexists. split; [reflexivity|]. auto.
Qed.

End Rounding.

(** * The scale factor and the scaled size *)

Module Scaling.
Import PyFloat Rounding Script.

(** Sizes Pillow can hold: positive C [int]s. *)
Definition dim_ok (n : Z) : Prop := 0 < n < 2 ^ 31.

Lemma lit_0_8_normal : normal (-53) (-53) lit_0_8.
Proof.
  exists 7205759403792794%positive, (-53). split; [reflexivity|].
  split; [split; [discriminate|reflexivity]|lia].
Qed.

Lemma lit_0_8_value : (to_Q lit_0_8 == 7205759403792794 # 9007199254740992)%Q.
Proof. reflexivity. Qed.

(** The literal is the double nearest to 4/5. *)
Lemma lit_0_8_nearest : truediv 4 5 = Ok lit_0_8.
Proof. reflexivity. Qed.

Lemma dim_Q n : dim_ok n -> (0 < inject_Z n < 2147483648 # 1)%Q.
Proof.
  intros [H1 H2]. change (2147483648 # 1)%Q with (inject_Z (2 ^ 31)).
  rewrite <- !Zlt_Qlt. change (inject_Z 0) with 0%Q. split; [|assumption].
  change 0%Q with (inject_Z 0). rewrite <- Zlt_Qlt. assumption.
Qed.

(** The scale factor is a normal double within three roundings of
    [0.8 * min (W / lw) (H / lh)]. *)
Lemma scale_factor_spec W H lw lh :
  dim_ok W -> dim_ok H -> dim_ok lw -> dim_ok lh ->
  exists a b s,
    truediv W lw = Ok a /\ truediv H lh = Ok b /\
    scale_factor W H lw lh = Ok s /\
    s = mul (min a b) lit_0_8 /\
    normal (-84) (-20) s /\
    (to_Q s * inject_Z lw <= (1 + u) * (1 + u) * to_Q lit_0_8 * inject_Z W)%Q /\
    (to_Q s * inject_Z lh <= (1 + u) * (1 + u) * to_Q lit_0_8 * inject_Z H)%Q /\
    ((1 - u) * (1 - u) * to_Q lit_0_8 * inject_Z W <= to_Q s * inject_Z lw \/
     (1 - u) * (1 - u) * to_Q lit_0_8 * inject_Z H <= to_Q s * inject_Z lh)%Q.
Proof.
  intros HW HH Hlw Hlh.
  destruct (truediv_normal W lw HW Hlw) as (a & Ea & Na & Va).
  destruct (truediv_normal H lh HH Hlh) as (b & Eb & Nb & Vb).
  exists a, b, (mul (min a b) lit_0_8).
  split; [exact Ea|]. split; [exact Eb|].
  split; [unfold scale_factor; rewrite Ea, Eb; reflexivity|].
  split; [reflexivity|].
  destruct (min_normal _ _ a b Na Nb) as (Nm & Ma & Mb & Mcase).
  destruct (mul_normal _ _ _ _ _ _ Nm lit_0_8_normal) as [Ns Vs];
    [unfold emin, prec, emax; lia|unfold emax; lia|].
  split; [exact Ns|].
  pose proof (dim_Q _ HW) as QW. pose proof (dim_Q _ HH) as QH.
  pose proof (dim_Q _ Hlw) as Qlw. pose proof (dim_Q _ Hlh) as Qlh.
  rewrite lit_0_8_value in *.
  set (vs := to_Q (mul (min a b) lit_0_8)) in *.
  set (vm := to_Q (min a b)) in *.
  set (va := to_Q a) in *. set (vb := to_Q b) in *.
  set (qW := inject_Z W) in *. set (qH := inject_Z H) in *.
  set (ql := inject_Z lw) in *. set (qh := inject_Z lh) in *.
  destruct Vs as [Vs1 Vs2].
  assert (Sl2 : (vs * ql <= (1 + u) * (vm * (7205759403792794 # 9007199254740992)) * ql)%Q)
    by (apply Qmult_le_compat_r; lra).
  assert (Sh2 : (vs * qh <= (1 + u) * (vm * (7205759403792794 # 9007199254740992)) * qh)%Q)
    by (apply Qmult_le_compat_r; lra).
  assert (Sl1 : ((1 - u) * (vm * (7205759403792794 # 9007199254740992)) * ql <= vs * ql)%Q)
    by (apply Qmult_le_compat_r; lra).
  assert (Sh1 : ((1 - u) * (vm * (7205759403792794 # 9007199254740992)) * qh <= vs * qh)%Q)
    by (apply Qmult_le_compat_r; lra).
  assert (Mal : (vm * ql <= va * ql)%Q) by (apply Qmult_le_compat_r; lra).
  assert (Mbh : (vm * qh <= vb * qh)%Q) by (apply Qmult_le_compat_r; lra).
  unfold u in *. change (2 ^ 53)%positive with 9007199254740992%positive in *.
  split; [lra|]. split; [lra|].
  destruct Mcase as [E|E]; [left|right]; subst vm; rewrite E in *;
    fold va in Sl1; fold vb in Sh1; lra.
Qed.

(** One scaled dimension: [int(l * scale)] is computed without overflow, is
    the integer part of the rounded product, and is at most 4/5 of the
    canvas dimension. *)
Lemma scaled_dim_spec s l W :
  normal (-84) (-20) s -> dim_ok l -> dim_ok W ->
  (to_Q s * inject_Z l <= (1 + u) * (1 + u) * to_Q lit_0_8 * inject_Z W)%Q ->
  exists p n,
    int_mul l s = Ok p /\ to_int p = Ok n /\
    (inject_Z n <= to_Q p < inject_Z n + 1)%Q /\
    0 <= n /\ 5 * n <= 4 * W.
Proof.
  intros Ns Hl HW Hs.
  destruct (of_int_exact l Hl) as (fl & Efl & Nfl & Vfl).
  destruct (mul_normal _ _ _ _ _ _ Nfl Ns) as [Np Vp];
    [unfold emin, prec, emax; lia|unfold emax; lia|].
  destruct (to_int_floor _ _ _ Np) as (n & En & Hn0 & Hn1 & Hn2).
  exists (mul fl s), n.
  split; [unfold int_mul; rewrite Efl; reflexivity|].
  split; [exact En|]. split; [split; assumption|]. split; [assumption|].
  pose proof (dim_Q _ HW) as QW.
  rewrite Vfl in Vp. rewrite lit_0_8_value in Hs.
  assert (5 * n < 4 * W + 1); [|lia].
  rewrite Zlt_Qlt, inject_Z_plus, !inject_Z_mult.
  change (inject_Z 5) with (5 # 1)%Q. change (inject_Z 4) with (4 # 1)%Q.
  change (inject_Z 1) with 1%Q.
  set (vp := to_Q (mul fl s)) in *. set (vs := to_Q s) in *.
  set (ql := inject_Z l) in *. set (qW := inject_Z W) in *.
  set (qn := inject_Z n) in *.
  destruct Vp as [_ Vp].
  setoid_replace (ql * vs)%Q with (vs * ql)%Q using relation Qeq in Vp by ring.
  unfold u in *. change (2 ^ 53)%positive with 9007199254740992%positive in *.
  lra.
Qed.

Theorem scaled_size_spec W H lw lh :
  dim_ok W -> dim_ok H -> dim_ok lw -> dim_ok lh ->
  exists s nw nh,
    scale_factor W H lw lh = Ok s /\
    scaled_size s lw lh = Ok (nw, nh) /\
    0 <= nw /\ 0 <= nh /\ 5 * nw <= 4 * W /\ 5 * nh <= 4 * H.
Proof.
  intros HW HH Hlw Hlh.
  destruct (scale_factor_spec W H lw lh HW HH Hlw Hlh)
    as (a & b & s & _ & _ & Es & _ & Ns & Vw & Vh & _).
  destruct (scaled_dim_spec s lw W Ns Hlw HW Vw) as (pw & nw & Epw & Enw & _ & Hnw & Bw).
  destruct (scaled_dim_spec s lh H Ns Hlh HH Vh) as (ph & nh & Eph & Enh & _ & Hnh & Bh).
  exists s, nw, nh. split; [exact Es|].
  split; [unfold scaled_size; rewrite Epw; simpl; rewrite Enw; simpl;
          rewrite Eph; simpl; rewrite Enh; reflexivity|].
  repeat split; assumption.
Qed.

(** The rounding tolerance granted to the scale factor: [2^-51]. *)
Definition tolerance : Q := 1 # (2 ^ 51).

(** The exact ratio the scale factor approximates. *)
Definition exact_ratio (W H lw lh : Z) : Q :=
  Qmin (inject_Z W / inject_Z lw) (inject_Z H / inject_Z lh).

Lemma ratio_le v k a b :
  (0 < b)%Q -> (v * b <= k * a)%Q -> (v <= k * (a / b))%Q.
Proof.
  intros Hb H. apply (Qmult_le_r _ _ b Hb).
  setoid_replace (k * (a / b) * b)%Q with (k * a)%Q using relation Qeq;
    [exact H|]. field. lra.
Qed.

Lemma ratio_ge v k a b :
  (0 < b)%Q -> (k * a <= v * b)%Q -> (k * (a / b) <= v)%Q.
Proof.
  intros Hb H. apply (Qmult_le_r _ _ b Hb).
  setoid_replace (k * (a / b) * b)%Q with (k * a)%Q using relation Qeq;
    [exact H|]. field. lra.
Qed.

Theorem scale_factor_enclosure W H lw lh s :
  dim_ok W -> dim_ok H -> dim_ok lw -> dim_ok lh ->
  scale_factor W H lw lh = Ok s ->
  ((4 # 5) * (1 - tolerance) * exact_ratio W H lw lh <= to_Q s
     <= (4 # 5) * (1 + tolerance) * exact_ratio W H lw lh)%Q.
Proof.
  intros HW HH Hlw Hlh Es.
  destruct (scale_factor_spec W H lw lh HW HH Hlw Hlh)
    as (a & b & s' & _ & _ & Es' & _ & _ & Uw & Uh & L).
  rewrite Es in Es'. injection Es' as <-.
  pose proof (dim_Q _ HW) as QW. pose proof (dim_Q _ HH) as QH.
  pose proof (dim_Q _ Hlw) as Qlw. pose proof (dim_Q _ Hlh) as Qlh.
  apply ratio_le in Uw, Uh; try lra.
  assert (L' : ((1 - u) * (1 - u) * to_Q lit_0_8 * (inject_Z W / inject_Z lw) <= to_Q s \/
                (1 - u) * (1 - u) * to_Q lit_0_8 * (inject_Z H / inject_Z lh) <= to_Q s)%Q).
  { destruct L as [L|L]; [left|right]; apply ratio_ge; lra. }
  clear L. rewrite lit_0_8_value in *. unfold exact_ratio.
  set (X := (inject_Z W / inject_Z lw)%Q) in *.
  set (Y := (inject_Z H / inject_Z lh)%Q) in *.
  assert (HX : (0 < X)%Q) by (subst X; apply Qlt_shift_div_l; lra).
  assert (HY : (0 < Y)%Q) by (subst Y; apply Qlt_shift_div_l; lra).
  pose proof (Q.le_min_l X Y) as Ml. pose proof (Q.le_min_r X Y) as Mr.
  assert (HM : (0 < Qmin X Y)%Q) by (apply Q.min_glb_lt; assumption).
  unfold tolerance, u in *.
  change (2 ^ 53)%positive with 9007199254740992%positive in *.
  change (2 ^ 51)%positive with 2251799813685248%positive in *.
  split.
  - destruct L' as [L|L]; nra.
  - destruct (Q.min_dec X Y) as [E|E]; rewrite E; lra.
Qed.

End Scaling.

(** * The output encoding *)

Module Encoding.
Import PIL Script.

Definition byte_ok (v : Z) : Prop := 0 <= v <= 255.

Definition rgb_ok (p : rgb) : Prop :=
  let '(r, g, b) := p in byte_ok r /\ byte_ok g /\ byte_ok b.

(** The four bytes written for one pixel. *)
Definition encode_pixel (p : rgb) : list Z :=
  let '(r, g, b) := p in [b; g; r; 0].

(** The whole file: rows top to bottom, pixels left to right. *)
Definition raster (pixels : Z -> Z -> rgb) (width height : Z) : list Z :=
  flat_map (fun row => flat_map (fun col => encode_pixel (pixels col row))
                         (range width))
           (range height).

(** Reading the file back: the little-endian 32-bit word at byte [off]. *)
Definition u32_at (bytes : list Z) (off : nat) : option Z :=
  b0 ← bytes !! off;
  b1 ← bytes !! (off + 1)%nat;
  b2 ← bytes !! (off + 2)%nat;
  b3 ← bytes !! (off + 3)%nat;
  Some (b0 + b1 * 2 ^ 8 + b2 * 2 ^ 16 + b3 * 2 ^ 24).

(** Byte offset of the pixel at column [col] of row [row]. *)
Definition offset (width col row : Z) : nat :=
  Z.to_nat (4 * (row * width + col)).

(** Bytes 2, 1 and 0 of a word. *)
Definition channels (v : Z) : rgb :=
  (Z.land (Z.shiftr v 16) 255, Z.land (Z.shiftr v 8) 255, Z.land v 255).

Lemma lor_low a b n :
  0 <= n -> 0 <= b < 2 ^ n -> Z.lor (a * 2 ^ n) b = a * 2 ^ n + b.
Proof.
  intros Hn Hb. symmetry. apply Z.add_nocarry_lor.
  apply Z.bits_inj'. intros i Hi.
  rewrite Z.land_spec, Z.bits_0.
  destruct (Z.ltb_spec i n).
  - rewrite Z.mul_pow2_bits_low by lia. reflexivity.
  - rewrite <- (Z.mod_small b (2 ^ n)) by lia.
    rewrite Z.mod_pow2_bits_high by lia. apply andb_false_r.
Qed.

Lemma pixel_value_sum r g b :
  byte_ok r -> byte_ok g -> byte_ok b ->
  Z.lor (Z.lor (Z.shiftl r 16) (Z.shiftl g 8)) b = r * 65536 + g * 256 + b.
Proof.
  unfold byte_ok. intros Hr Hg Hb.
  rewrite !Z.shiftl_mul_pow2 by lia.
  replace (r * 2 ^ 16) with (r * 2 ^ 8 * 2 ^ 8) by (change (2 ^ 16) with (2 ^ 8 * 2 ^ 8); ring).
  rewrite <- (Z.lor_assoc).
  rewrite (lor_low g b 8) by (change (2 ^ 8) with 256; lia).
  change (2 ^ 8) with 256.
  replace (r * 256 * 256) with (r * 2 ^ 16) by (change (2 ^ 16) with 65536; ring).
  rewrite (lor_low r (g * 256 + b) 16) by (change (2 ^ 16) with 65536; lia).
  change (2 ^ 16) with 65536. ring.
Qed.

Lemma struct_pack_pixel r g b :
  byte_ok r -> byte_ok g -> byte_ok b ->
  struct_pack_I (Z.lor (Z.lor (Z.shiftl r 16) (Z.shiftl g 8)) b)
    = Ok (encode_pixel (r, g, b)).
Proof.
  intros Hr Hg Hb. rewrite (pixel_value_sum r g b Hr Hg Hb).
  unfold byte_ok in *. unfold struct_pack_I.
  change (2 ^ 32) with 4294967296.
  destruct (Z.leb_spec 0 (r * 65536 + g * 256 + b)); [|lia].
  destruct (Z.ltb_spec (r * 65536 + g * 256 + b) 4294967296); [|lia].
  simpl andb. cbv iota. unfold encode_pixel.
  change 255 with (Z.ones 8) at 1 2 3 4.
  rewrite !Z.land_ones, !Z.shiftr_div_pow2 by lia.
  change (2 ^ 8) with 256. change (2 ^ 16) with 65536.
  change (2 ^ 24) with 16777216.
  repeat f_equal; Z.div_mod_to_equations; lia.
Qed.

Lemma write_row_ok pixels row cols f :
  (forall col, rgb_ok (pixels col row)) ->
  write_row pixels row cols f
    = (Ok tt, f ++ flat_map (fun col => encode_pixel (pixels col row)) cols).
Proof.
  intros Hok. revert f. induction cols as [|col cols IH]; intros f; simpl.
  - rewrite app_nil_r. reflexivity.
  - specialize (Hok col) as Hc. destruct (pixels col row) as [[r g] b].
    destruct Hc as (Hr & Hg & Hb).
    rewrite (struct_pack_pixel r g b Hr Hg Hb), IH, <- app_assoc. reflexivity.
Qed.

Lemma write_rows_ok pixels rows width f :
  (forall col row, rgb_ok (pixels col row)) ->
  write_rows pixels rows width f
    = (Ok tt, f ++ flat_map (fun row =>
                     flat_map (fun col => encode_pixel (pixels col row))
                       (range width)) rows).
Proof.
  intros Hok. revert f. induction rows as [|row rows IH]; intros f; simpl.
  - rewrite app_nil_r. reflexivity.
  - rewrite write_row_ok by (intros; apply Hok).
    rewrite IH, <- app_assoc. reflexivity.
Qed.

Lemma flat_map_chunk_length {A B} (g : B -> list A) len l :
  (forall b, length (g b) = len) ->
  length (flat_map g l) = (length l * len)%nat.
Proof.
  intros Hg. induction l as [|b l IH]; simpl; [reflexivity|].
  rewrite length_app, Hg, IH. reflexivity.
Qed.

Lemma flat_map_chunk_lookup {A B} (g : B -> list A) len l :
  (forall b, length (g b) = len) ->
  forall i j b, l !! i = Some b -> (j < len)%nat ->
  flat_map g l !! (i * len + j)%nat = g b !! j.
Proof.
  intros Hg. induction l as [|a l IH]; intros i j b Hi Hj; [discriminate|].
  destruct i as [|i]; simpl in *.
  - injection Hi as ->. apply lookup_app_l. rewrite Hg. exact Hj.
  - rewrite lookup_app_r by (rewrite Hg; lia).
    rewrite Hg. replace (len + i * len + j - len)%nat with (i * len + j)%nat by lia.
    apply IH; assumption.
Qed.

Lemma range_lookup n i :
  0 <= i < n -> range n !! Z.to_nat i = Some i.
Proof.
  intros Hi. unfold range. rewrite lookup_seqZ_lt by lia. f_equal. lia.
Qed.

Lemma range_length n : length (range n) = Z.to_nat n.
Proof. apply length_seqZ. Qed.

Lemma encode_pixel_length p : length (encode_pixel p) = 4%nat.
Proof. destruct p as [[r g] b]. reflexivity. Qed.

Lemma raster_length pixels width height :
  0 <= width -> 0 <= height ->
  Z.of_nat (length (raster pixels width height)) = width * height * 4.
Proof.
  intros HW HH. unfold raster.
  rewrite (flat_map_chunk_length _ (Z.to_nat width * 4)).
  - rewrite range_length. lia.
  - intros row. rewrite (flat_map_chunk_length _ 4), range_length; [reflexivity|].
    intros col. apply encode_pixel_length.
Qed.

Lemma raster_lookup pixels width height col row j :
  0 <= row < height -> 0 <= col < width -> (j < 4)%nat ->
  raster pixels width height !! (offset width col row + j)%nat
    = encode_pixel (pixels col row) !! j.
Proof.
  intros Hrow Hcol Hj. unfold raster, offset.
  replace (Z.to_nat (4 * (row * width + col)) + j)%nat
    with (Z.to_nat row * (Z.to_nat width * 4) + (Z.to_nat col * 4 + j))%nat by nia.
  rewrite (flat_map_chunk_lookup _ (Z.to_nat width * 4) _) with (b := row).
  - apply (flat_map_chunk_lookup (fun c => encode_pixel (pixels c row)) 4
             (range width) (fun c => encode_pixel_length _)
             (Z.to_nat col) j col); [|exact Hj].
    apply range_lookup. exact Hcol.
  - intros r. rewrite (flat_map_chunk_length _ 4), range_length; [reflexivity|].
    intros c. apply encode_pixel_length.
  - apply range_lookup. exact Hrow.
  - nia.
Qed.

(** The word read back at a pixel's offset holds its three channels. *)
Lemma raster_u32 pixels width height col row :
  0 <= row < height -> 0 <= col < width ->
  u32_at (raster pixels width height) (offset width col row)
    = let '(r, g, b) := pixels col row in Some (r * 65536 + g * 256 + b).
Proof.
  intros Hrow Hcol. unfold u32_at.
  rewrite <- (Nat.add_0_r (offset width col row)) at 1.
  rewrite !raster_lookup by (assumption || lia).
  destruct (pixels col row) as [[r g] b]. simpl. f_equal. lia.
Qed.

Lemma channels_sum r g b :
  byte_ok r -> byte_ok g -> byte_ok b ->
  channels (r * 65536 + g * 256 + b) = (r, g, b) /\
  Z.shiftr (r * 65536 + g * 256 + b) 24 = 0.
Proof.
  unfold byte_ok, channels. intros Hr Hg Hb.
  change 255 with (Z.ones 8).
  rewrite !Z.land_ones, !Z.shiftr_div_pow2 by lia.
  change (2 ^ 8) with 256. change (2 ^ 16) with 65536.
  change (2 ^ 24) with 16777216.
  split; [repeat f_equal|]; Z.div_mod_to_equations; lia.
Qed.

End Encoding.

(** * The conversion pipeline *)

Module Pipeline.
Import PIL Script Encoding.

(** The opaque white the canvas starts with. *)
Definition white : rgba := (255, 255, 255, 255).

(** The alpha channel of an RGBA pixel. *)
Definition alpha (p : rgba) : Z := let '(_, _, _, a) := p in a.

(** Whether canvas position (col, row) lies under the placed logo. *)
Definition in_footprint (c : composition) (col row : Z) : bool :=
  let '(x, y) := position c in
  let '(w, h) := logo_size c in
  (x <=? col) && (col <? x + w) && (y <=? row) && (row <? y + h).

(** The placed logo stays clear of all four canvas edges. *)
Definition strictly_inside (width height : Z) (c : composition) : Prop :=
  let '(x, y) := position c in
  let '(w, h) := logo_size c in
  0 < x /\ x + w < width /\ 0 < y /\ y + h < height.

(** The placed logo does not leave the canvas. *)
Definition inside (width height : Z) (c : composition) : Prop :=
  let '(x, y) := position c in
  let '(w, h) := logo_size c in
  0 <= x /\ x + w <= width /\ 0 <= y /\ y + h <= height.

(** ** Blending *)

Lemma land_255 v : Z.land v 255 = v mod 256.
Proof. change 255 with (Z.ones 8). rewrite Z.land_ones by lia. reflexivity. Qed.

Lemma blend_byte m a b : byte_ok (blend m a b).
Proof.
  unfold byte_ok, blend. rewrite land_255.
  match goal with |- 0 <= ?x mod 256 <= 255 =>
    pose proof (Z.mod_pos_bound x 256 ltac:(lia)) end.
  lia.
Qed.

(** A fully transparent pixel leaves the background channel as it is. *)
Lemma blend_transparent a b : byte_ok a -> blend 0 a b = a.
Proof.
  unfold byte_ok, blend. intros Ha.
  rewrite Z.mul_0_r, Z.add_0_r, Z.sub_0_r.
  rewrite land_255, !Z.shiftr_div_pow2 by lia.
  change (2 ^ 8) with 256. Z.div_mod_to_equations. lia.
Qed.

(** A fully opaque pixel replaces the background channel. *)
Lemma blend_opaque a b : byte_ok b -> blend 255 a b = b.
Proof.
  unfold byte_ok, blend. intros Hb.
  rewrite Z.sub_diag, Z.mul_0_r, Z.add_0_l.
  rewrite land_255, !Z.shiftr_div_pow2 by lia.
  change (2 ^ 8) with 256. Z.div_mod_to_equations. lia.
Qed.

Lemma new_white width height bg :
  new (width, height) white = Ok bg ->
  0 <= width /\ 0 <= height /\ bg = mkImage (width, height) (fun _ _ => white).
Proof.
  unfold new. destruct (Z.ltb_spec width 0), (Z.ltb_spec height 0); simpl;
    try discriminate.
  intros [= <-]. repeat split; lia.
Qed.

Section Pipeline.

Variable decode : list Z -> option AnyImage.
Variable lanczos : Image rgba -> Z * Z -> Z -> Z -> rgba.

(** ** Compositing *)

Lemma compose_inv bg logo width height c :
  compose lanczos bg logo width height = Ok c ->
  exists placed,
    scale_logo lanczos (ensure_RGBA logo) width height = Ok placed /\
    logo_size c = size placed /\
    position c = ((width - fst (size placed)) / 2,
                  (height - snd (size placed)) / 2) /\
    canvas c = convert_RGB (paste bg placed (position c) placed).
Proof.
  unfold compose.
  destruct (scale_logo lanczos (ensure_RGBA logo) width height) as [placed|e];
    simpl; [|discriminate].
  destruct (size placed) as [lw lh] eqn:Es. intros [= <-]. simpl.
  exists placed. rewrite Es. auto.
Qed.

(** Outside the footprint the canvas shows the background. *)
Lemma canvas_outside bg logo width height c col row :
  compose lanczos bg logo width height = Ok c ->
  in_footprint c col row = false ->
  pixel (canvas c) col row =
    (let '(r, g, b, _) := pixel bg col row in (r, g, b)).
Proof.
  intros Hc Hout. destruct (compose_inv _ _ _ _ _ Hc) as (placed & _ & Hs & Hp & ->).
  unfold in_footprint in Hout. rewrite Hs in Hout.
  destruct (position c) as [x y]. destruct (size placed) as [lw lh] eqn:Es.
  unfold convert_RGB, paste. rewrite Es. simpl. rewrite Hout. reflexivity.
Qed.

(** Inside, every channel is the blend of background and logo, weighted by
    the logo's alpha. *)
Lemma canvas_inside bg logo width height c placed col row :
  compose lanczos bg logo width height = Ok c ->
  scale_logo lanczos (ensure_RGBA logo) width height = Ok placed ->
  in_footprint c col row = true ->
  pixel (canvas c) col row =
    (let '(r1, g1, b1, _) := pixel bg col row in
     let '(r2, g2, b2, a) :=
       pixel placed (col - fst (position c)) (row - snd (position c)) in
     (blend a r1 r2, blend a g1 g2, blend a b1 b2)).
Proof.
  intros Hc Hp Hin.
  destruct (compose_inv _ _ _ _ _ Hc) as (placed' & Hp' & Hs & _ & ->).
  rewrite Hp in Hp'. injection Hp' as <-.
  unfold in_footprint in Hin. rewrite Hs in Hin.
  destruct (position c) as [x y]. destruct (size placed) as [lw lh] eqn:Es.
  unfold convert_RGB, paste. rewrite Es. simpl. rewrite Hin.
  destruct (pixel bg col row) as [[[r1 g1] b1] a1].
  destruct (pixel placed (col - x) (row - y)) as [[[r2 g2] b2] a2]. reflexivity.
Qed.

(** On a white canvas every channel of the result is an 8-bit value. *)
Lemma canvas_bytes width height bg logo c :
  new (width, height) white = Ok bg ->
  compose lanczos bg logo width height = Ok c ->
  forall col row, rgb_ok (pixel (canvas c) col row).
Proof.
  intros Hbg Hc col row. apply new_white in Hbg as (_ & _ & ->).
  destruct (compose_inv _ _ _ _ _ Hc) as (placed & Hp & _ & _ & _).
  destruct (in_footprint c col row) eqn:Hin.
  - rewrite (canvas_inside _ _ _ _ _ _ _ _ Hc Hp Hin). simpl.
    destruct (pixel placed _ _) as [[[r2 g2] b2] a2].
    repeat split; apply blend_byte.
  - rewrite (canvas_outside _ _ _ _ _ _ _ Hc Hin). simpl.
    unfold byte_ok. lia.
Qed.

(** ** The whole conversion, case by case *)

Lemma convert_unfold input_path output_path width height w :
  convert_logo_to_raw decode lanczos input_path output_path width height w =
  match new (width, height) white with
  | Raise e => (Raise e, w)
  | Ok bg =>
    match open decode (files w) input_path with
    | Raise e => (Raise e, w)
    | Ok logo =>
      match compose lanczos bg logo width height with
      | Raise e => (Raise e, w)
      | Ok c =>
          (Ok tt,
           mkWorld (<[output_path := raster (pixel (canvas c)) width height]> (files w))
             (stdout w ++ [Saved output_path; Dimensions width height;
                           FileSize (width * height * 4);
                           LogoSize (fst (logo_size c)) (snd (logo_size c));
                           LogoPosition (fst (position c)) (snd (position c))]))
      end
    end
  end.
Proof.
  unfold convert_logo_to_raw. fold white.
  destruct (new (width, height) white) as [bg|e] eqn:Hbg; [|reflexivity].
  destruct (open decode (files w) input_path) as [logo|e]; [|reflexivity].
  destruct (compose lanczos bg logo width height) as [c|e] eqn:Hc; [|reflexivity].
  unfold range at 1. fold (range height).
  rewrite write_rows_ok by (intros; eapply canvas_bytes; eassumption).
  fold (raster (pixel (canvas c)) width height). simpl.
  destruct (logo_size c), (position c). reflexivity.
Qed.

Lemma convert_Ok_inv input_path output_path width height w w' :
  convert_logo_to_raw decode lanczos input_path output_path width height w
    = (Ok tt, w') ->
  exists bg logo c,
    new (width, height) white = Ok bg /\
    open decode (files w) input_path = Ok logo /\
    compose lanczos bg logo width height = Ok c /\
    files w' = <[output_path := raster (pixel (canvas c)) width height]> (files w).
Proof.
  rewrite convert_unfold.
  destruct (new (width, height) white) as [bg|e] eqn:Hbg; [|discriminate].
  destruct (open decode (files w) input_path) as [logo|e] eqn:Hl; [|discriminate].
  destruct (compose lanczos bg logo width height) as [c|e] eqn:Hc; [|discriminate].
  intros [= <-]. exists bg, logo, c. auto.
Qed.

(** ** Scaling *)

Lemma scale_logo_fits logo width height :
  fst (size logo) <= width -> snd (size logo) <= height ->
  scale_logo lanczos logo width height = Ok logo.
Proof.
  unfold scale_logo. destruct (size logo) as [lw lh]. simpl. intros Hw Hh.
  destruct (Z.ltb_spec width lw), (Z.ltb_spec height lh); try lia. reflexivity.
Qed.

Lemma scale_logo_exceeds logo width height :
  width < fst (size logo) \/ height < snd (size logo) ->
  scale_logo lanczos logo width height =
    (scale ← scale_factor width height (fst (size logo)) (snd (size logo));
     new_size ← scaled_size scale (fst (size logo)) (snd (size logo));
     resize lanczos logo new_size).
Proof.
  unfold scale_logo. destruct (size logo) as [lw lh]. simpl. intros H.
  destruct (Z.ltb_spec width lw), (Z.ltb_spec height lh); try lia; reflexivity.
Qed.

Lemma resize_size im new_size im' :
  resize lanczos im new_size = Ok im' -> size im' = new_size.
Proof.
  unfold resize. destruct new_size as [w h].
  destruct (bool_decide_reflect (size im = (w, h))) as [E|_].
  - intros [= <-]. exact E.
  - destruct ((w <? 1) || (h <? 1)); [discriminate|]. intros [= <-]. reflexivity.
Qed.

Lemma resize_positive im w h im' :
  size im <> (w, h) -> resize lanczos im (w, h) = Ok im' -> 1 <= w /\ 1 <= h.
Proof.
  unfold resize. intros Hne.
  destruct (bool_decide_reflect (size im = (w, h))) as [E|_]; [contradiction|].
  destruct (Z.ltb_spec w 1), (Z.ltb_spec h 1); simpl; try discriminate. lia.
Qed.

Lemma resize_zero im w h :
  size im <> (w, h) -> w < 1 \/ h < 1 ->
  resize lanczos im (w, h) = Raise ValueError.
Proof.
  unfold resize. intros Hne Hz.
  destruct (bool_decide_reflect (size im = (w, h))) as [E|_]; [contradiction|].
  destruct (Z.ltb_spec w 1), (Z.ltb_spec h 1); simpl; try reflexivity. lia.
Qed.

(** Whatever [scale_logo] returns fits the canvas; a scaled logo takes at
    most 4/5 of it in each dimension. *)
Lemma scale_logo_size logo width height placed :
  Scaling.dim_ok width -> Scaling.dim_ok height ->
  Scaling.dim_ok (fst (size logo)) -> Scaling.dim_ok (snd (size logo)) ->
  scale_logo lanczos logo width height = Ok placed ->
  (fst (size logo) <= width /\ snd (size logo) <= height /\ placed = logo) \/
  ((width < fst (size logo) \/ height < snd (size logo)) /\
   1 <= fst (size placed) /\ 1 <= snd (size placed) /\
   5 * fst (size placed) <= 4 * width /\ 5 * snd (size placed) <= 4 * height).
Proof.
  intros HW HH Hlw Hlh Hs.
  destruct (Z.le_gt_cases (fst (size logo)) width) as [Hw|Hw];
    [destruct (Z.le_gt_cases (snd (size logo)) height) as [Hh|Hh]|].
  - left. rewrite scale_logo_fits in Hs by assumption.
    injection Hs as <-. auto.
  - right. split; [auto|].
    rewrite scale_logo_exceeds in Hs by auto.
    destruct (Scaling.scaled_size_spec _ _ _ _ HW HH Hlw Hlh)
      as (s & nw & nh & Es & En & Hnw & Hnh & Bw & Bh).
    rewrite Es in Hs. simpl in Hs. rewrite En in Hs. simpl in Hs.
    pose proof (resize_size _ _ _ Hs) as Hsz.
    assert (Hne : size logo <> (nw, nh)).
    { intros E. rewrite E in Hh. simpl in Hh. lia. }
    pose proof (resize_positive _ _ _ _ Hne Hs). rewrite Hsz. simpl. lia.
  - right. split; [auto|].
    rewrite scale_logo_exceeds in Hs by auto.
    destruct (Scaling.scaled_size_spec _ _ _ _ HW HH Hlw Hlh)
      as (s & nw & nh & Es & En & Hnw & Hnh & Bw & Bh).
    rewrite Es in Hs. simpl in Hs. rewrite En in Hs. simpl in Hs.
    pose proof (resize_size _ _ _ Hs) as Hsz.
    assert (Hne : size logo <> (nw, nh)).
    { intros E. rewrite E in Hw. simpl in Hw. lia. }
    pose proof (resize_positive _ _ _ _ Hne Hs). rewrite Hsz. simpl. lia.
Qed.

Lemma resize_ok im w h :
  1 <= w -> 1 <= h ->
  exists im', resize lanczos im (w, h) = Ok im'.
Proof.
  unfold resize. intros Hw Hh.
  destruct (bool_decide (size im = (w, h))); [eauto|].
  destruct (Z.ltb_spec w 1), (Z.ltb_spec h 1); try lia. simpl. eauto.
Qed.

(** A successful scale computation means neither source dimension is 0. *)
Lemma scale_factor_divisors width height lw lh s :
  scale_factor width height lw lh = Ok s -> lw <> 0 /\ lh <> 0.
Proof.
  unfold scale_factor. intros Es. split; intros E; rewrite E in Es.
  - unfold PyFloat.truediv in Es at 1. simpl in Es. discriminate.
  - destruct (PyFloat.truediv width lw); simpl in Es; [|discriminate].
    unfold PyFloat.truediv in Es. simpl in Es. discriminate.
Qed.

(** How a conversion ends once the input has been decoded. *)
Lemma convert_decoded input_path output_path width height w logo :
  0 <= width -> 0 <= height ->
  open decode (files w) input_path = Ok logo ->
  match scale_logo lanczos (ensure_RGBA logo) width height with
  | Ok _ => exists w', convert_logo_to_raw decode lanczos input_path output_path
                         width height w = (Ok tt, w')
  | Raise e => convert_logo_to_raw decode lanczos input_path output_path
                 width height w = (Raise e, w)
  end.
Proof.
  intros HW HH Hopen. rewrite convert_unfold, Hopen. unfold new, white.
  destruct (Z.ltb_spec width 0), (Z.ltb_spec height 0); try lia. simpl.
  unfold compose.
  destruct (scale_logo lanczos (ensure_RGBA logo) width height) as [placed|e]; simpl.
  - destruct (size placed). eexists. reflexivity.
  - reflexivity.
Qed.

(** For sizes Pillow can hold, the conversion of a decoded logo either
    succeeds or stops at [resize] because a scaled dimension is 0. *)
Theorem convert_succeeds_or_zero input_path output_path width height w logo :
  Scaling.dim_ok width -> Scaling.dim_ok height ->
  open decode (files w) input_path = Ok logo ->
  Scaling.dim_ok (fst (size (ensure_RGBA logo))) ->
  Scaling.dim_ok (snd (size (ensure_RGBA logo))) ->
  (exists w', convert_logo_to_raw decode lanczos input_path output_path
                width height w = (Ok tt, w')) \/
  (convert_logo_to_raw decode lanczos input_path output_path width height w
     = (Raise ValueError, w) /\
   (width < fst (size (ensure_RGBA logo)) \/
    height < snd (size (ensure_RGBA logo))) /\
   exists s new_width new_height,
     scale_factor width height (fst (size (ensure_RGBA logo)))
       (snd (size (ensure_RGBA logo))) = Ok s /\
     scaled_size s (fst (size (ensure_RGBA logo))) (snd (size (ensure_RGBA logo)))
       = Ok (new_width, new_height) /\
     (new_width = 0 \/ new_height = 0)).
Proof.
  intros HW HH Hopen Hlw Hlh.
  pose proof (convert_decoded input_path output_path width height w logo
                ltac:(unfold Scaling.dim_ok in HW; lia)
                ltac:(unfold Scaling.dim_ok in HH; lia) Hopen) as Hrun.
  set (im := ensure_RGBA logo) in *.
  destruct (Z.le_gt_cases (fst (size im)) width) as [Hw|Hw];
    [destruct (Z.le_gt_cases (snd (size im)) height) as [Hh|Hh]|].
  - left. rewrite scale_logo_fits in Hrun by assumption. exact Hrun.
  - assert (Hex : width < fst (size im) \/ height < snd (size im)) by auto.
    destruct (Scaling.scaled_size_spec _ _ _ _ HW HH Hlw Hlh)
      as (s & nw & nh & Es & En & Hnw & Hnh & Bw & Bh).
    rewrite scale_logo_exceeds in Hrun by exact Hex.
    rewrite Es in Hrun. simpl in Hrun. rewrite En in Hrun. simpl in Hrun.
    destruct (Z.le_gt_cases 1 nw) as [Pw|Pw];
      [destruct (Z.le_gt_cases 1 nh) as [Ph|Ph]|].
    + left. destruct (resize_ok im nw nh Pw Ph) as [im' E].
      rewrite E in Hrun. exact Hrun.
    + right. rewrite resize_zero in Hrun; [|intros E; rewrite E in Hh; simpl in Hh; lia|lia].
      split; [exact Hrun|]. split; [exact Hex|].
      exists s, nw, nh. repeat split; try assumption. lia.
    + right. rewrite resize_zero in Hrun; [|intros E; rewrite E in Hh; simpl in Hh; lia|lia].
      split; [exact Hrun|]. split; [exact Hex|].
      exists s, nw, nh. repeat split; try assumption. lia.
  - assert (Hex : width < fst (size im) \/ height < snd (size im)) by auto.
    destruct (Scaling.scaled_size_spec _ _ _ _ HW HH Hlw Hlh)
      as (s & nw & nh & Es & En & Hnw & Hnh & Bw & Bh).
    rewrite scale_logo_exceeds in Hrun by exact Hex.
    rewrite Es in Hrun. simpl in Hrun. rewrite En in Hrun. simpl in Hrun.
    destruct (Z.le_gt_cases 1 nw) as [Pw|Pw];
      [destruct (Z.le_gt_cases 1 nh) as [Ph|Ph]|].
    + left. destruct (resize_ok im nw nh Pw Ph) as [im' E].
      rewrite E in Hrun. exact Hrun.
    + right. rewrite resize_zero in Hrun; [|intros E; rewrite E in Hw; simpl in Hw; lia|lia].
      split; [exact Hrun|]. split; [exact Hex|].
      exists s, nw, nh. repeat split; try assumption. lia.
    + right. rewrite resize_zero in Hrun; [|intros E; rewrite E in Hw; simpl in Hw; lia|lia].
      split; [exact Hrun|]. split; [exact Hex|].
      exists s, nw, nh. repeat split; try assumption. lia.
Qed.

End Pipeline.
End Pipeline.

(** * Concrete inputs *)

Module Examples.
Import PIL Script.

(** An image of one colour. *)
Definition solid (w h : Z) (c : rgba) : Image rgba :=
  mkImage (w, h) (fun _ _ => c).

(** Nearest-neighbour resampling, standing in for the Lanczos kernel. *)
Definition nearest : Image rgba -> Z * Z -> Z -> Z -> rgba :=
  fun im new_size x y =>
    pixel im (x * fst (size im) / fst new_size) (y * snd (size im) / snd new_size).

(** A decoder that yields [im] whatever the bytes. *)
Definition always (im : AnyImage) : list Z -> option AnyImage :=
  fun _ => Some im.

(** A decoder for a toy format: a magic byte, then a one-byte side length of
    an opaque red square. *)
Definition toy_decode (bytes : list Z) : option AnyImage :=
  match bytes with
  | [137; n] => Some (ImRGBA (solid n n (255, 0, 0, 255)))
  | _ => None
  end.

(** A file system holding only the input file. *)
Definition only_input (path : string) (bytes : list Z) : world :=
  mkWorld {[ path := bytes ]} [].

(** A 2 x 2 red logo whose top-left pixel is fully transparent (and not
    white underneath). *)
Definition cut_corner : AnyImage :=
  ImRGBA (mkImage (2, 2) (fun x y =>
            if (x =? 0) && (y =? 0) then (12, 34, 56, 0) else (255, 0, 0, 255))).

(** A 10000 x 1 strip. *)
Definition strip : AnyImage := ImRGBA (solid 10000 1 (0, 0, 0, 255)).

End Examples.

(** * The claims *)

Module Claims.
Import PIL Script Encoding Pipeline Examples.

(** C1.  The claim is that every decodable source yields exactly
    [W * H * 4] output bytes.  For a 10000 x 1 source on the default
    1920 x 1200 canvas the scaled height truncates to 0, [resize] raises
    [ValueError], and the run ends without an output file. *)
Theorem C1_elongated_logo_writes_nothing lanczos :
  let w := only_input "arceos.png" [] in
  convert_logo_to_raw (always strip) lanczos "arceos.png" "logo.raw" 1920 1200 w
    = (Raise ValueError, w) /\
  files w !! "logo.raw" = None.
Proof.
  split; reflexivity.
Qed.

(** Whenever the conversion does complete, the file has [W * H * 4] bytes. *)
Lemma output_length decode lanczos input_path output_path width height w w' :
  convert_logo_to_raw decode lanczos input_path output_path width height w
    = (Ok tt, w') ->
  exists bytes, files w' !! output_path = Some bytes /\
                Z.of_nat (length bytes) = width * height * 4.
Proof.
  intros H. destruct (convert_Ok_inv _ _ _ _ _ _ _ _ H)
    as (bg & logo & c & Hbg & _ & _ & Hf).
  apply new_white in Hbg as (HW & HH & _).
  eexists. rewrite Hf, lookup_insert_eq. split; [reflexivity|].
  apply raster_length; assumption.
Qed.

(** It completes for every source that fits the canvas. *)
Lemma fitting_logo_converts decode lanczos input_path output_path width height w logo :
  0 <= width -> 0 <= height ->
  open decode (files w) input_path = Ok logo ->
  fst (size (ensure_RGBA logo)) <= width ->
  snd (size (ensure_RGBA logo)) <= height ->
  exists w', convert_logo_to_raw decode lanczos input_path output_path width height w
               = (Ok tt, w').
Proof.
  intros HW HH Hopen Hw Hh.
  pose proof (convert_decoded decode lanczos input_path output_path width height
                w logo HW HH Hopen) as Hrun.
  rewrite scale_logo_fits in Hrun by assumption. exact Hrun.
Qed.

(** C2.  After a successful conversion, the four bytes at offset
    [4 * (row * W + col)] are the blue, green and red channels of the canvas
    pixel at (col, row) followed by a zero byte; read as a little-endian
    32-bit word they give [(R << 16) | (G << 8) | B], whose top byte is 0 and
    whose bytes 2, 1, 0 are the pixel's red, green and blue. *)
Theorem C2_pixel_encoding decode lanczos input_path output_path width height w w' :
  convert_logo_to_raw decode lanczos input_path output_path width height w
    = (Ok tt, w') ->
  exists bg logo c bytes,
    new (width, height) white = Ok bg /\
    open decode (files w) input_path = Ok logo /\
    compose lanczos bg logo width height = Ok c /\
    files w' !! output_path = Some bytes /\
    forall row col, 0 <= row < height -> 0 <= col < width ->
      exists r g b,
        pixel (canvas c) col row = (r, g, b) /\
        let off := offset width col row in
        let v := Z.lor (Z.lor (Z.shiftl r 16) (Z.shiftl g 8)) b in
        bytes !! off = Some b /\
        bytes !! (off + 1)%nat = Some g /\
        bytes !! (off + 2)%nat = Some r /\
        bytes !! (off + 3)%nat = Some 0 /\
        u32_at bytes off = Some v /\
        Z.shiftr v 24 = 0 /\
        channels v = (r, g, b).
Proof.
  intros H. destruct (convert_Ok_inv _ _ _ _ _ _ _ _ H)
    as (bg & logo & c & Hbg & Hopen & Hc & Hf).
  exists bg, logo, c, (raster (pixel (canvas c)) width height).
  split; [exact Hbg|]. split; [exact Hopen|]. split; [exact Hc|].
  split; [rewrite Hf; apply lookup_insert_eq|].
  intros row col Hrow Hcol.
  pose proof (canvas_bytes lanczos _ _ _ _ _ Hbg Hc col row) as Hok.
  pose proof (raster_u32 (pixel (canvas c)) width height col row Hrow Hcol) as Hu.
  pose proof (fun j => raster_lookup (pixel (canvas c)) width height col row j Hrow Hcol)
    as Hl.
  destruct (pixel (canvas c) col row) as [[r g] b]. destruct Hok as (Hr & Hg & Hb).
  exists r, g, b. split; [reflexivity|]. cbv zeta.
  rewrite (pixel_value_sum r g b Hr Hg Hb).
  destruct (channels_sum r g b Hr Hg Hb) as [Hch Htop].
  split; [rewrite <- (Nat.add_0_r (offset width col row)); apply (Hl 0%nat); lia|].
  split; [apply (Hl 1%nat); lia|].
  split; [apply (Hl 2%nat); lia|].
  split; [apply (Hl 3%nat); lia|].
  auto.
Qed.

(** A run that succeeds: a 1 x 1 red logo on a 2 x 2 canvas. *)
Lemma C2_pixel_encoding_witness :
  exists w' c bytes,
    convert_logo_to_raw toy_decode nearest "in" "out" 2 2 (only_input "in" [137; 1])
      = (Ok tt, w') /\
    files w' !! "out" = Some bytes /\
    pixel (canvas c) 0 0 = (255, 0, 0) /\
    u32_at bytes (offset 2 0 0) = Some 16711680.
Proof.
  destruct (C2_pixel_encoding toy_decode nearest "in" "out" 2 2
              (only_input "in" [137; 1])
              (snd (convert_logo_to_raw toy_decode nearest "in" "out" 2 2
                      (only_input "in" [137; 1]))) eq_refl)
    as (bg & logo & c & bytes & Hbg & Hopen & Hc & Hf & Hpx).
  exists (snd (convert_logo_to_raw toy_decode nearest "in" "out" 2 2
                 (only_input "in" [137; 1]))), c, bytes.
  split; [reflexivity|]. split; [exact Hf|].
  injection Hbg as <-. injection Hopen as <-. injection Hc as <-.
  destruct (Hpx 0 0 ltac:(lia) ltac:(lia)) as (r & g & b & Hp & _ & _ & _ & _ & Hu & _).
  injection Hp as <- <- <-. split; [reflexivity|]. exact Hu.
Defined.

(** C3.  Scaling is applied exactly when the logo is wider or taller than
    the canvas.  A logo that fits is returned unchanged.  One that does not is
    resized to [(int(lw * s), int(lh * s))] where the scale [s] is the
    double [min(W / lw, H / lh) * 0.8], within a relative [2^-51] of the
    exact [0.8 * min (W / lw) (H / lh)]; both new dimensions are within the
    canvas, and they are the size of whatever image [resize] returns. *)
Theorem C3_scaling_policy lanczos logo width height :
  Scaling.dim_ok width -> Scaling.dim_ok height ->
  Scaling.dim_ok (fst (size logo)) -> Scaling.dim_ok (snd (size logo)) ->
  let lw := fst (size logo) in
  let lh := snd (size logo) in
  (lw <= width /\ lh <= height ->
     scale_logo lanczos logo width height = Ok logo) /\
  (width < lw \/ height < lh ->
     exists a b s new_width new_height,
       PyFloat.truediv width lw = Ok a /\
       PyFloat.truediv height lh = Ok b /\
       s = PyFloat.mul (PyFloat.min a b) PyFloat.lit_0_8 /\
       scale_factor width height lw lh = Ok s /\
       ((4 # 5) * (1 - Scaling.tolerance) * Scaling.exact_ratio width height lw lh
          <= PyFloat.to_Q s
          <= (4 # 5) * (1 + Scaling.tolerance) * Scaling.exact_ratio width height lw lh)%Q /\
       scaled_size s lw lh = Ok (new_width, new_height) /\
       new_width <= width /\ new_height <= height /\
       (size logo <> (new_width, new_height)) /\
       scale_logo lanczos logo width height
         = resize lanczos logo (new_width, new_height) /\
       forall logo', scale_logo lanczos logo width height = Ok logo' ->
                     size logo' = (new_width, new_height)).
Proof.
  intros HW HH Hlw Hlh lw lh. split.
  - intros [Hw Hh]. apply scale_logo_fits; assumption.
  - intros Hex.
    destruct (Scaling.scale_factor_spec _ _ _ _ HW HH Hlw Hlh)
      as (a & b & s & Ea & Eb & Es & Hs & _).
    destruct (Scaling.scaled_size_spec _ _ _ _ HW HH Hlw Hlh)
      as (s' & nw & nh & Es' & En & Hnw & Hnh & Bw & Bh).
    fold lw lh in Ea, Eb, Es, Es', En. rewrite Es in Es'. injection Es' as <-.
    exists a, b, s, nw, nh.
    split; [exact Ea|]. split; [exact Eb|]. split; [exact Hs|].
    split; [exact Es|].
    split; [apply Scaling.scale_factor_enclosure; assumption|].
    split; [exact En|].
    unfold Scaling.dim_ok in *.
    split; [lia|]. split; [lia|].
    assert (Hne : size logo <> (nw, nh)).
    { intros E. subst lw lh. rewrite E in Hex. simpl in Hex. lia. }
    split; [exact Hne|].
    assert (Hsl : scale_logo lanczos logo width height = resize lanczos logo (nw, nh)).
    { rewrite scale_logo_exceeds by exact Hex. fold lw lh. rewrite Es. simpl.
      rewrite En. reflexivity. }
    split; [exact Hsl|].
    intros logo' H'. rewrite Hsl in H'. eapply resize_size; eassumption.
Qed.

(** The 4000 x 4000 logo of the specification's scenario, on the default
    canvas: scaled by the double nearest 0.24 to 960 x 960. *)
Lemma C3_scaling_policy_witness :
  scale_factor 1920 1200 4000 4000
    = Ok (S754_finite false 8646911284551352 (-55)) /\
  scaled_size (S754_finite false 8646911284551352 (-55)) 4000 4000
    = Ok (960, 960) /\
  exists logo', scale_logo nearest (solid 4000 4000 (9, 9, 9, 255)) 1920 1200
                  = Ok logo' /\ size logo' = (960, 960).
Proof.
  destruct (C3_scaling_policy nearest (solid 4000 4000 (9, 9, 9, 255)) 1920 1200)
    as [_ H]; try (simpl; unfold Scaling.dim_ok; lia).
  destruct H as (a & b & s & nw & nh & Ea & Eb & Hs & Es & _ & En & _ & _ & _ & Hsl & Hsz).
  { simpl. lia. }
  vm_compute in Ea, Eb. injection Ea as <-. injection Eb as <-. subst s.
  vm_compute in Es, En. injection En as <- <-.
  split; [exact Es|]. split; [vm_compute; reflexivity|].
  eexists. split; [exact Hsl|]. reflexivity.
Defined.

(** Size and position of the placed logo, for sizes Pillow can hold. *)
Lemma placement lanczos bg logo width height c :
  Scaling.dim_ok width -> Scaling.dim_ok height ->
  Scaling.dim_ok (fst (size (ensure_RGBA logo))) ->
  Scaling.dim_ok (snd (size (ensure_RGBA logo))) ->
  compose lanczos bg logo width height = Ok c ->
  position c = ((width - fst (logo_size c)) / 2, (height - snd (logo_size c)) / 2) /\
  ((fst (size (ensure_RGBA logo)) <= width /\
    snd (size (ensure_RGBA logo)) <= height /\
    logo_size c = size (ensure_RGBA logo)) \/
   ((width < fst (size (ensure_RGBA logo)) \/
     height < snd (size (ensure_RGBA logo))) /\
    1 <= fst (logo_size c) /\ 1 <= snd (logo_size c) /\
    5 * fst (logo_size c) <= 4 * width /\
    5 * snd (logo_size c) <= 4 * height)).
Proof.
  intros HW HH Hlw Hlh Hc.
  destruct (compose_inv lanczos _ _ _ _ _ Hc) as (placed & Hp & Hs & Hpos & _).
  rewrite Hs. split; [exact Hpos|].
  destruct (scale_logo_size lanczos _ _ _ _ HW HH Hlw Hlh Hp)
    as [(Hw & Hh & ->)|H]; [left|right]; auto.
Qed.

(** C4.  The offsets are [(W - lw) // 2] and [(H - lh) // 2] for the size
    [(lw, lh)] of the logo as placed (after any resize); the placed logo is no
    larger than the canvas, so neither offset is negative. *)
Theorem C4_offsets_nonnegative lanczos bg logo width height c :
  Scaling.dim_ok width -> Scaling.dim_ok height ->
  Scaling.dim_ok (fst (size (ensure_RGBA logo))) ->
  Scaling.dim_ok (snd (size (ensure_RGBA logo))) ->
  compose lanczos bg logo width height = Ok c ->
  let lw := fst (logo_size c) in
  let lh := snd (logo_size c) in
  position c = ((width - lw) / 2, (height - lh) / 2) /\
  lw <= width /\ lh <= height /\
  0 <= fst (position c) /\ 0 <= snd (position c).
Proof.
  intros HW HH Hlw Hlh Hc lw lh.
  destruct (placement lanczos _ _ _ _ _ HW HH Hlw Hlh Hc) as [Hpos Hcase].
  fold lw lh in Hpos, Hcase. unfold Scaling.dim_ok in *.
  assert (lw <= width /\ lh <= height) as [Hw Hh].
  { destruct Hcase as [(Hw & Hh & E)|(_ & _ & _ & Bw & Bh)].
    - subst lw lh. rewrite E. lia.
    - lia. }
  rewrite Hpos. simpl.
  repeat split; try assumption; apply Z.div_pos; lia.
Qed.

(** The specification's scenario: a 4000 x 4000 logo on 1920 x 1200 lands
    at (480, 120). *)
Lemma C4_offsets_nonnegative_witness :
  exists c,
    compose nearest (solid 1920 1200 white) (ImRGBA (solid 4000 4000 (9, 9, 9, 255)))
      1920 1200 = Ok c /\
    logo_size c = (960, 960) /\ position c = (480, 120).
Proof.
  assert (Hc : exists c,
    compose nearest (solid 1920 1200 white) (ImRGBA (solid 4000 4000 (9, 9, 9, 255)))
      1920 1200 = Ok c /\ logo_size c = (960, 960)).
  { eexists. split; vm_compute; reflexivity. }
  destruct Hc as (c & Hc & Hs). exists c. split; [exact Hc|]. split; [exact Hs|].
  destruct (C4_offsets_nonnegative nearest (solid 1920 1200 white)
              (ImRGBA (solid 4000 4000 (9, 9, 9, 255))) 1920 1200 c) as (Hpos & _);
    try exact Hc; try (simpl; unfold Scaling.dim_ok; lia).
  rewrite Hpos, Hs. reflexivity.
Defined.

(** C5, as stated: the placed logo never touches the canvas edges.  A logo
    of exactly the canvas size is placed unscaled at (0, 0) and covers the
    canvas edge to edge. *)
Lemma C5_fitting_logo_touches_edges :
  ~ (forall lanczos bg logo width height c,
       compose lanczos bg logo width height = Ok c ->
       strictly_inside width height c).
Proof.
  intros H.
  specialize (H nearest (solid 200 200 white)
                (ImRGBA (solid 200 200 (255, 0, 0, 255))) 200 200 _ eq_refl).
  vm_compute in H. destruct H as (H & _). discriminate H.
Qed.

(** C5, amended.  A logo that exceeds the canvas is scaled to at most 4/5 of
    the canvas in each dimension, and on a canvas of at least 6 x 6 it is
    placed strictly inside.  A logo that fits is placed unscaled, within the
    canvas, and is strictly inside exactly when it is at least two pixels
    smaller than the canvas in each dimension. *)
Theorem C5_margin lanczos bg logo width height c :
  Scaling.dim_ok width -> Scaling.dim_ok height ->
  Scaling.dim_ok (fst (size (ensure_RGBA logo))) ->
  Scaling.dim_ok (snd (size (ensure_RGBA logo))) ->
  compose lanczos bg logo width height = Ok c ->
  let lw := fst (size (ensure_RGBA logo)) in
  let lh := snd (size (ensure_RGBA logo)) in
  inside width height c /\
  (width < lw \/ height < lh ->
     5 * fst (logo_size c) <= 4 * width /\
     5 * snd (logo_size c) <= 4 * height /\
     (6 <= width -> 6 <= height -> strictly_inside width height c)) /\
  (lw <= width /\ lh <= height ->
     logo_size c = (lw, lh) /\
     (strictly_inside width height c <-> lw + 2 <= width /\ lh + 2 <= height)).
Proof.
  intros HW HH Hlw Hlh Hc lw lh.
  destruct (placement lanczos _ _ _ _ _ HW HH Hlw Hlh Hc) as [Hpos Hcase].
  fold lw lh in Hcase. unfold Scaling.dim_ok in *.
  unfold inside, strictly_inside. rewrite Hpos.
  destruct (logo_size c) as [pw ph] eqn:Es. simpl in *.
  pose proof (Z.div_mod (width - pw) 2 ltac:(lia)) as Dw.
  pose proof (Z.mod_pos_bound (width - pw) 2 ltac:(lia)) as Mw.
  pose proof (Z.div_mod (height - ph) 2 ltac:(lia)) as Dh.
  pose proof (Z.mod_pos_bound (height - ph) 2 ltac:(lia)) as Mh.
  destruct Hcase as [(Hw & Hh & E)|(Hex & P1 & P2 & Bw & Bh)].
  - assert (pw = lw /\ ph = lh) as [-> ->]
      by (subst lw lh; rewrite <- E; auto).
    split; [lia|]. split; [lia|].
    intros _. split; [reflexivity|]. split; lia.
  - split; [lia|]. split; [|lia].
    intros _. split; [lia|]. split; [lia|]. intros. lia.
Qed.

(** The 4000 x 4000 logo on 1920 x 1200 keeps a margin on every side. *)
Lemma C5_margin_witness :
  exists c,
    compose nearest (solid 1920 1200 white) (ImRGBA (solid 4000 4000 (9, 9, 9, 255)))
      1920 1200 = Ok c /\
    strictly_inside 1920 1200 c.
Proof.
  assert (Hc : exists c,
    compose nearest (solid 1920 1200 white) (ImRGBA (solid 4000 4000 (9, 9, 9, 255)))
      1920 1200 = Ok c).
  { eexists. vm_compute. reflexivity. }
  destruct Hc as (c & Hc). exists c. split; [exact Hc|].
  destruct (C5_margin nearest (solid 1920 1200 white)
              (ImRGBA (solid 4000 4000 (9, 9, 9, 255))) 1920 1200 c) as (_ & Hex & _);
    try exact Hc; try (simpl; unfold Scaling.dim_ok; lia).
  apply Hex; simpl; lia.
Defined.

(** C6.  After a successful conversion, every canvas pixel outside the
    footprint of the placed logo is written as the word [0x00FFFFFF], which
    decodes to (255, 255, 255): the canvas starts uniformly white and [paste]
    writes only inside the footprint. *)
Theorem C6_background_white decode lanczos input_path output_path width height w w' :
  convert_logo_to_raw decode lanczos input_path output_path width height w
    = (Ok tt, w') ->
  exists bg logo c bytes,
    new (width, height) white = Ok bg /\
    (forall col row, pixel bg col row = white) /\
    open decode (files w) input_path = Ok logo /\
    compose lanczos bg logo width height = Ok c /\
    files w' !! output_path = Some bytes /\
    forall row col, 0 <= row < height -> 0 <= col < width ->
      in_footprint c col row = false ->
      pixel (canvas c) col row = (255, 255, 255) /\
      u32_at bytes (offset width col row) = Some 16777215 /\
      channels 16777215 = (255, 255, 255).
Proof.
  intros H. destruct (convert_Ok_inv _ _ _ _ _ _ _ _ H)
    as (bg & logo & c & Hbg & Hopen & Hc & Hf).
  exists bg, logo, c, (raster (pixel (canvas c)) width height).
  split; [exact Hbg|].
  pose proof (new_white _ _ _ Hbg) as (_ & _ & Ebg).
  split; [intros; rewrite Ebg; reflexivity|].
  split; [exact Hopen|]. split; [exact Hc|].
  split; [rewrite Hf; apply lookup_insert_eq|].
  intros row col Hrow Hcol Hout.
  pose proof (canvas_outside lanczos _ _ _ _ _ _ _ Hc Hout) as Hpx.
  rewrite Ebg in Hpx. simpl in Hpx.
  split; [exact Hpx|]. split; [|reflexivity].
  rewrite raster_u32, Hpx by assumption. reflexivity.
Qed.

(** A 1 x 1 logo at the top left of a 2 x 2 canvas: the other three pixels
    are white. *)
Lemma C6_background_white_witness :
  exists w' bytes,
    convert_logo_to_raw toy_decode nearest "in" "out" 2 2 (only_input "in" [137; 1])
      = (Ok tt, w') /\
    files w' !! "out" = Some bytes /\
    u32_at bytes (offset 2 1 1) = Some 16777215.
Proof.
  destruct (C6_background_white toy_decode nearest "in" "out" 2 2
              (only_input "in" [137; 1])
              (snd (convert_logo_to_raw toy_decode nearest "in" "out" 2 2
                      (only_input "in" [137; 1]))) eq_refl)
    as (bg & logo & c & bytes & Hbg & _ & Hopen & Hc & Hf & Hpx).
  exists (snd (convert_logo_to_raw toy_decode nearest "in" "out" 2 2
                 (only_input "in" [137; 1]))), bytes.
  split; [reflexivity|]. split; [exact Hf|].
  injection Hbg as <-. injection Hopen as <-. injection Hc as <-.
  apply (Hpx 1 1); [lia|lia|reflexivity].
Defined.

(** C7.  After a successful conversion, wherever the logo as composited has
    alpha 0 the canvas pixel under it is written as pure white, whatever
    the logo's colour there; a source that fits is composited as is.  A
    source in a mode without alpha ("L", "RGB") is converted with alpha 255
    everywhere, so the paste always has an alpha channel to weigh by. *)
Theorem C7_transparent_pixels decode lanczos input_path output_path width height w w' :
  convert_logo_to_raw decode lanczos input_path output_path width height w
    = (Ok tt, w') ->
  exists bg logo placed c bytes,
    open decode (files w) input_path = Ok logo /\
    scale_logo lanczos (ensure_RGBA logo) width height = Ok placed /\
    (fst (size (ensure_RGBA logo)) <= width ->
     snd (size (ensure_RGBA logo)) <= height -> placed = ensure_RGBA logo) /\
    (mode logo = "L" \/ mode logo = "RGB" ->
     forall x y, alpha (pixel (ensure_RGBA logo) x y) = 255) /\
    compose lanczos bg logo width height = Ok c /\
    logo_size c = size placed /\
    files w' !! output_path = Some bytes /\
    forall i j,
      0 <= i < fst (size placed) -> 0 <= j < snd (size placed) ->
      alpha (pixel placed i j) = 0 ->
      let col := fst (position c) + i in
      let row := snd (position c) + j in
      pixel (canvas c) col row = (255, 255, 255) /\
      (0 <= row < height -> 0 <= col < width ->
       u32_at bytes (offset width col row) = Some 16777215).
Proof.
  intros H. destruct (convert_Ok_inv _ _ _ _ _ _ _ _ H)
    as (bg & logo & c & Hbg & Hopen & Hc & Hf).
  destruct (compose_inv lanczos _ _ _ _ _ Hc) as (placed & Hp & Hs & Hpos & _).
  exists bg, logo, placed, c, (raster (pixel (canvas c)) width height).
  split; [exact Hopen|]. split; [exact Hp|].
  split.
  { intros Hw Hh. rewrite scale_logo_fits in Hp by assumption.
    injection Hp as <-. reflexivity. }
  split.
  { intros Hm x y. destruct logo as [im|im|im|im]; simpl in *;
      destruct Hm as [Hm|Hm]; try discriminate Hm; try reflexivity.
    destruct (pixel im x y) as [[r g] b]. reflexivity. }
  split; [exact Hc|]. split; [exact Hs|].
  split; [rewrite Hf; apply lookup_insert_eq|].
  intros i j Hi Hj Ha col row.
  pose proof (new_white _ _ _ Hbg) as (_ & _ & Ebg).
  assert (Hin : in_footprint c col row = true).
  { unfold in_footprint. subst col row. rewrite Hs.
    destruct (position c) as [x y], (size placed) as [lw lh]. simpl in *.
    destruct (Z.leb_spec x (x + i)), (Z.ltb_spec (x + i) (x + lw)),
      (Z.leb_spec y (y + j)), (Z.ltb_spec (y + j) (y + lh));
      try lia; reflexivity. }
  assert (Hpx : pixel (canvas c) col row = (255, 255, 255)).
  { rewrite (canvas_inside lanczos _ _ _ _ _ _ _ _ Hc Hp Hin), Ebg. simpl.
    subst col row.
    replace (fst (position c) + i - fst (position c)) with i by lia.
    replace (snd (position c) + j - snd (position c)) with j by lia.
    destruct (pixel placed i j) as [[[r g] b] a]. simpl in Ha. subst a.
    rewrite !blend_transparent by (unfold byte_ok; lia). reflexivity. }
  split; [exact Hpx|].
  intros Hrow Hcol. rewrite raster_u32, Hpx by assumption. reflexivity.
Qed.

(** A 2 x 2 logo with a transparent corner, centred on a 4 x 4 canvas: the
    canvas pixel (1, 1) under the corner is written as white. *)
Lemma C7_transparent_pixels_witness :
  exists w' bytes,
    convert_logo_to_raw (always cut_corner) nearest "in" "out" 4 4 (only_input "in" [])
      = (Ok tt, w') /\
    files w' !! "out" = Some bytes /\
    u32_at bytes (offset 4 1 1) = Some 16777215.
Proof.
  destruct (C7_transparent_pixels (always cut_corner) nearest "in" "out" 4 4
              (only_input "in" [])
              (snd (convert_logo_to_raw (always cut_corner) nearest "in" "out" 4 4
                      (only_input "in" []))) eq_refl)
    as (bg & logo & placed & c & bytes & Hopen & Hp & _ & _ & Hc & _ & Hf & Hpx).
  exists (snd (convert_logo_to_raw (always cut_corner) nearest "in" "out" 4 4
                 (only_input "in" []))), bytes.
  split; [reflexivity|]. split; [exact Hf|].
  vm_compute in Hopen. injection Hopen as <-.
  vm_compute in Hp. injection Hp as <-.
  destruct (Hpx 0 0) as [_ Hu]; [simpl; lia|simpl; lia|reflexivity|].
  assert (Hpos : position c = (1, 1)).
  { destruct (compose_inv nearest _ _ _ _ _ Hc) as (placed & Hp & _ & Hpos & _).
    vm_compute in Hp. injection Hp as <-. exact Hpos. }
  rewrite Hpos in Hu. apply Hu; simpl; lia.
Defined.

(** The outcome of a conversion is a function of the input file alone. *)
Lemma convert_depends_on_input decode lanczos input_path output_path width height w1 w2 :
  files w1 !! input_path = files w2 !! input_path ->
  let run w := convert_logo_to_raw decode lanczos input_path output_path width height w in
  fst (run w1) = fst (run w2) /\
  (fst (run w1) = Ok tt ->
   files (snd (run w1)) !! output_path = files (snd (run w2)) !! output_path /\
   is_Some (files (snd (run w1)) !! output_path)) /\
  (forall e, fst (run w1) = Raise e -> snd (run w1) = w1 /\ snd (run w2) = w2).
Proof.
  intros Hin run. subst run. cbv beta. rewrite !convert_unfold.
  unfold open. rewrite Hin.
  destruct (new (width, height) white) as [bg|e]; [|simpl; split; [|split]; auto; discriminate].
  destruct (files w2 !! input_path) as [bytes|]; [|simpl; split; [|split]; auto; discriminate].
  destruct (decode bytes) as [logo|]; [|simpl; split; [|split]; auto; discriminate].
  destruct (compose lanczos bg logo width height) as [c|e];
    [|simpl; split; [|split]; auto; discriminate].
  simpl. split; [reflexivity|]. split; [|discriminate].
  intros _. rewrite !lookup_insert_eq. eauto.
Qed.

(** A second run, with an output path other than the input path, finds the
    input as it was and reproduces the first run. *)
Lemma convert_rerun decode lanczos input_path output_path width height w :
  input_path <> output_path ->
  let run w := convert_logo_to_raw decode lanczos input_path output_path width height w in
  files (snd (run w)) !! input_path = files w !! input_path /\
  fst (run (snd (run w))) = fst (run w) /\
  files (snd (run (snd (run w)))) = files (snd (run w)).
Proof.
  intros Hne run.
  assert (Hin : files (snd (run w)) !! input_path = files w !! input_path).
  { subst run. cbv beta. rewrite convert_unfold.
    destruct (new (width, height) white) as [bg|e]; [|reflexivity].
    destruct (open decode (files w) input_path) as [logo|e]; [|reflexivity].
    destruct (compose lanczos bg logo width height) as [c|e]; [|reflexivity].
    simpl. apply lookup_insert_ne. congruence. }
  split; [exact Hin|].
  destruct (convert_depends_on_input decode lanczos input_path output_path
              width height (snd (run w)) w Hin) as (H1 & _ & _).
  split; [exact H1|].
  clear H1. subst run. cbv beta in *. rewrite !convert_unfold in *.
  unfold open in *. rewrite Hin.
  destruct (new (width, height) white) as [bg|e]; [|reflexivity].
  destruct (files w !! input_path) as [bytes|]; [|reflexivity].
  destruct (decode bytes) as [logo|]; [|reflexivity].
  destruct (compose lanczos bg logo width height) as [c|e]; [|reflexivity].
  simpl. apply insert_insert_eq.
Qed.

(** Distinct file names stay distinct when joined to the same directory. *)
Lemma os_path_join_inj d a b :
  starts_with_sep a = false -> starts_with_sep b = false ->
  os_path_join d a = os_path_join d b -> a = b.
Proof.
  unfold os_path_join. intros -> ->.
  assert (Happ : forall p x y : string, p +:+ x = p +:+ y -> x = y).
  { induction p as [|ch p IH]; simpl; intros x y E; [exact E|].
    injection E as E. apply IH. exact E. }
  destruct (bool_decide (d = "") || ends_with_sep d); intros E.
  - apply (Happ d). exact E.
  - apply (Happ "/"), (Happ d). exact E.
Qed.

(** [main] reads [arceos.png] and writes [logo.raw]: running it again
    changes no file and ends the same way. *)
Lemma main_rerun decode lanczos script_dir w :
  let run := main decode lanczos script_dir in
  fst (run (snd (run w))) = fst (run w) /\
  files (snd (run (snd (run w)))) = files (snd (run w)).
Proof.
  intros run. subst run. cbv beta. unfold main.
  set (inp := os_path_join script_dir "arceos.png").
  set (out := os_path_join script_dir "logo.raw").
  assert (Hne : inp <> out).
  { intros E. apply os_path_join_inj in E; [discriminate|reflexivity|reflexivity]. }
  destruct (bool_decide_reflect (files w !! inp = None)) as [Hmiss|Hthere].
  - simpl. rewrite bool_decide_eq_true_2 by exact Hmiss. auto.
  - destruct (convert_rerun decode lanczos inp out 1920 1200 w Hne)
      as (Hin & Hfst & Hfiles). cbv beta in *.
    set (r1 := convert_logo_to_raw decode lanczos inp out 1920 1200 w) in *.
    assert (Hsnd : snd (let (r, w0) := r1 in
                        match r with
                        | Ok _ => (Exit 0, w0)
                        | Raise e => (Uncaught e, w0)
                        end) = snd r1)
      by (destruct r1 as [[u|e] w1]; reflexivity).
    rewrite Hsnd.
    rewrite bool_decide_eq_false_2 by (rewrite Hin; exact Hthere).
    set (r2 := convert_logo_to_raw decode lanczos inp out 1920 1200 (snd r1)) in *.
    destruct r1 as [[[]|e1] w1], r2 as [[[]|e2] w2]; simpl in *;
      try discriminate; split; congruence.
Qed.

(** C8.  Two runs with the same paths and canvas size, from any two states
    of the world that hold the same input file, end the same way and, when
    they succeed, leave byte-identical output files.  When the output path
    is not the input path, running the conversion a second time reproduces
    the file system the first run left; [main], whose two paths always
    differ, can be run twice with the same result. *)
Theorem C8_deterministic decode lanczos input_path output_path width height :
  let run w := convert_logo_to_raw decode lanczos input_path output_path width height w in
  (forall w1 w2,
     files w1 !! input_path = files w2 !! input_path ->
     fst (run w1) = fst (run w2) /\
     (fst (run w1) = Ok tt ->
      files (snd (run w1)) !! output_path = files (snd (run w2)) !! output_path /\
      is_Some (files (snd (run w1)) !! output_path))) /\
  (forall w,
     input_path <> output_path ->
     fst (run (snd (run w))) = fst (run w) /\
     files (snd (run (snd (run w)))) = files (snd (run w))) /\
  (forall script_dir w,
     let run_main := main decode lanczos script_dir in
     fst (run_main (snd (run_main w))) = fst (run_main w) /\
     files (snd (run_main (snd (run_main w)))) = files (snd (run_main w))).
Proof.
  intros run. split; [|split].
  - intros w1 w2 Hin.
    destruct (convert_depends_on_input decode lanczos input_path output_path
                width height w1 w2 Hin) as (H1 & H2 & _).
    split; assumption.
  - intros w Hne.
    destruct (convert_rerun decode lanczos input_path output_path width height
                w Hne) as (_ & H1 & H2).
    split; assumption.
  - intros script_dir w. apply main_rerun.
Qed.

(** Two worlds that share the input file but differ elsewhere produce the
    same output file; and a second run on top of the first changes nothing. *)
Lemma C8_deterministic_witness :
  let run := convert_logo_to_raw toy_decode nearest "in" "out" 2 2 in
  let w1 := only_input "in" [137; 1] in
  let w2 := mkWorld (<["out" := [1; 2; 3]]> {[ "in" := [137; 1] ]}) [Saved "x"] in
  files (snd (run w1)) !! "out" = files (snd (run w2)) !! "out" /\
  files (snd (run (snd (run w1)))) = files (snd (run w1)).
Proof.
  intros run w1 w2.
  destruct (C8_deterministic toy_decode nearest "in" "out" 2 2) as (H1 & H2 & _).
  split.
  - apply (H1 w1 w2); reflexivity.
  - apply (H2 w1). discriminate.
Defined.

(** C9.  When the input path does not exist, [main] reports it and returns
    status 1 without calling the conversion: no file is created or changed.
    The conversion itself, called on a missing path, stops at [Image.open]
    with [FileNotFoundError], again leaving every file as it was. *)
Theorem C9_missing_input decode lanczos script_dir w :
  files w !! os_path_join script_dir "arceos.png" = None ->
  main decode lanczos script_dir w
    = (Exit 1,
       mkWorld (files w)
         (stdout w ++ [InputNotFound (os_path_join script_dir "arceos.png")])) /\
  1 <> 0 /\
  files (snd (main decode lanczos script_dir w)) = files w /\
  forall output_path width height,
    0 <= width -> 0 <= height ->
    convert_logo_to_raw decode lanczos (os_path_join script_dir "arceos.png")
      output_path width height w = (Raise FileNotFoundError, w).
Proof.
  intros Hmiss.
  assert (Hmain : main decode lanczos script_dir w
    = (Exit 1,
       mkWorld (files w)
         (stdout w ++ [InputNotFound (os_path_join script_dir "arceos.png")]))).
  { unfold main. rewrite bool_decide_eq_true_2 by exact Hmiss. reflexivity. }
  split; [exact Hmain|]. split; [lia|]. split; [rewrite Hmain; reflexivity|].
  intros output_path width height HW HH. rewrite convert_unfold.
  unfold new, white.
  destruct (Z.ltb_spec width 0), (Z.ltb_spec height 0); try lia. simpl.
  unfold open. rewrite Hmiss. reflexivity.
Qed.

(** A run in a directory without [arceos.png]. *)
Lemma C9_missing_input_witness :
  main toy_decode nearest "/boot" (mkWorld ∅ [])
    = (Exit 1, mkWorld ∅ [InputNotFound "/boot/arceos.png"]).
Proof.
  destruct (C9_missing_input toy_decode nearest "/boot" (mkWorld ∅ []))
    as [H _]; [reflexivity|].
  exact H.
Defined.

(** C10.  The new size is [(int(lw * s), int(lh * s))], each component the
    truncation toward zero of its own rounded product.  When the logo exceeds
    the canvas and either component is 0, [resize] is called with it and
    raises [ValueError]; the conversion then ends with that error and the
    world untouched, so no output byte is written. *)
Theorem C10_zero_dimension_aborts decode lanczos input_path output_path w
    logo width height s new_width new_height :
  let lw := fst (size (ensure_RGBA logo)) in
  let lh := snd (size (ensure_RGBA logo)) in
  0 <= width -> 0 <= height ->
  open decode (files w) input_path = Ok logo ->
  width < lw \/ height < lh ->
  scale_factor width height lw lh = Ok s ->
  scaled_size s lw lh = Ok (new_width, new_height) ->
  new_width = 0 \/ new_height = 0 ->
  (exists pw ph,
     PyFloat.int_mul lw s = Ok pw /\ PyFloat.to_int pw = Ok new_width /\
     Rounding.truncation (PyFloat.to_Q pw) new_width /\
     PyFloat.int_mul lh s = Ok ph /\ PyFloat.to_int ph = Ok new_height /\
     Rounding.truncation (PyFloat.to_Q ph) new_height) /\
  scale_logo lanczos (ensure_RGBA logo) width height
    = resize lanczos (ensure_RGBA logo) (new_width, new_height) /\
  resize lanczos (ensure_RGBA logo) (new_width, new_height) = Raise ValueError /\
  convert_logo_to_raw decode lanczos input_path output_path width height w
    = (Raise ValueError, w).
Proof.
  intros lw lh HW HH Hopen Hex Es En Hz.
  assert (Hparts : exists pw ph,
     PyFloat.int_mul lw s = Ok pw /\ PyFloat.to_int pw = Ok new_width /\
     PyFloat.int_mul lh s = Ok ph /\ PyFloat.to_int ph = Ok new_height).
  { unfold scaled_size in En.
    destruct (PyFloat.int_mul lw s) as [pw|e]; simpl in En; [|discriminate].
    destruct (PyFloat.to_int pw) as [nw|e] eqn:Enw; simpl in En; [|discriminate].
    destruct (PyFloat.int_mul lh s) as [ph|e]; simpl in En; [|discriminate].
    destruct (PyFloat.to_int ph) as [nh|e] eqn:Enh; simpl in En; [|discriminate].
    injection En as <- <-. exists pw, ph. auto. }
  destruct Hparts as (pw & ph & Epw & Enw & Eph & Enh).
  split.
  { exists pw, ph. repeat split; try assumption;
      apply Rounding.to_int_truncation; assumption. }
  assert (Hsl : scale_logo lanczos (ensure_RGBA logo) width height
                = resize lanczos (ensure_RGBA logo) (new_width, new_height)).
  { rewrite scale_logo_exceeds by exact Hex. fold lw lh. rewrite Es. simpl.
    rewrite En. reflexivity. }
  split; [exact Hsl|].
  (* a zero divisor would have stopped the scale computation *)
  pose proof (scale_factor_divisors _ _ _ _ _ Es) as Hnz.
  assert (Hne : size (ensure_RGBA logo) <> (new_width, new_height)).
  { intros E. subst lw lh. rewrite E in Hnz. simpl in Hnz. lia. }
  assert (Hres : resize lanczos (ensure_RGBA logo) (new_width, new_height)
                 = Raise ValueError).
  { apply resize_zero; [exact Hne|lia]. }
  split; [exact Hres|].
  pose proof (convert_decoded decode lanczos input_path output_path width height
                w logo HW HH Hopen) as Hrun.
  rewrite Hsl, Hres in Hrun. exact Hrun.
Qed.

(** The 10000 x 1 strip on the default canvas: the new size is (1536, 0). *)
Lemma C10_zero_dimension_aborts_witness :
  scaled_size (S754_finite false 5534023222112866 (-55)) 10000 1 = Ok (1536, 0) /\
  convert_logo_to_raw (always strip) nearest "arceos.png" "logo.raw" 1920 1200
    (only_input "arceos.png" [])
    = (Raise ValueError, only_input "arceos.png" []).
Proof.
  destruct (C10_zero_dimension_aborts (always strip) nearest "arceos.png" "logo.raw"
              (only_input "arceos.png" []) strip 1920 1200
              (S754_finite false 5534023222112866 (-55)) 1536 0)
    as (_ & _ & _ & H); try (simpl; lia); try (vm_compute; reflexivity).
  split; [vm_compute; reflexivity|exact H].
Defined.

End Claims.

(** * More on the scaled size

    Two-sided bounds on the products behind [scaled_size], from which the
    further properties of the resized logo follow. *)

Module ScaledSize.
Import PyFloat Rounding Script Scaling.

(** [int(l * s)] with the value of the rounded product enclosed on both
    sides. *)
Lemma scaled_dim_value s l :
  normal (-84) (-20) s -> dim_ok l ->
  exists p n,
    int_mul l s = Ok p /\ to_int p = Ok n /\ 0 <= n /\
    (inject_Z n <= to_Q p < inject_Z n + 1)%Q /\
    ((1 - u) * (inject_Z l * to_Q s) <= to_Q p
       <= (1 + u) * (inject_Z l * to_Q s))%Q.
Proof.
  intros Ns Hl.
  destruct (of_int_exact l Hl) as (fl & Efl & Nfl & Vfl).
  destruct (mul_normal _ _ _ _ _ _ Nfl Ns) as [Np Vp];
    [unfold emin, prec, emax; lia|unfold emax; lia|].
  destruct (to_int_floor _ _ _ Np) as (n & En & Hn0 & Hn1 & Hn2).
  exists (mul fl s), n.
  split; [unfold int_mul; rewrite Efl; reflexivity|].
  split; [exact En|]. split; [exact Hn0|]. split; [split; assumption|].
  rewrite Vfl in Vp. exact Vp.
Qed.

(** Everything the script computes on the scaling branch, with the values
    of the three doubles involved. *)
Record scaling (W H lw lh : Z) := mkScaling {
  sc_scale : float;
  sc_pw : float;
  sc_ph : float;
  sc_nw : Z;
  sc_nh : Z
}.
Arguments sc_scale {W H lw lh} s.
Arguments sc_pw {W H lw lh} s.
Arguments sc_ph {W H lw lh} s.
Arguments sc_nw {W H lw lh} s.
Arguments sc_nh {W H lw lh} s.

Definition scaling_ok {W H lw lh} (k : scaling W H lw lh) : Prop :=
  let vs := to_Q (sc_scale k) in
  let vw := to_Q (sc_pw k) in
  let vh := to_Q (sc_ph k) in
  let kU := ((1 + u) * (1 + u) * to_Q lit_0_8)%Q in
  let kL := ((1 - u) * (1 - u) * to_Q lit_0_8)%Q in
  scale_factor W H lw lh = Ok (sc_scale k) /\
  scaled_size (sc_scale k) lw lh = Ok (sc_nw k, sc_nh k) /\
  0 <= sc_nw k /\ 0 <= sc_nh k /\
  ((0 < vs) /\
   (vs * inject_Z lw <= kU * inject_Z W) /\
   (vs * inject_Z lh <= kU * inject_Z H) /\
   (kL * inject_Z W <= vs * inject_Z lw \/ kL * inject_Z H <= vs * inject_Z lh) /\
   (inject_Z (sc_nw k) <= vw < inject_Z (sc_nw k) + 1) /\
   (inject_Z (sc_nh k) <= vh < inject_Z (sc_nh k) + 1) /\
   ((1 - u) * (inject_Z lw * vs) <= vw <= (1 + u) * (inject_Z lw * vs)) /\
   ((1 - u) * (inject_Z lh * vs) <= vh <= (1 + u) * (inject_Z lh * vs)))%Q.

Lemma normal_positive lo hi f : normal lo hi f -> (0 < to_Q f)%Q.
Proof.
  intros (m & e & -> & _ & _). rewrite to_Q_finite.
  apply Qmult_lt_0_compat; [|apply pow2_pos].
  change 0%Q with (inject_Z 0). rewrite <- Zlt_Qlt. lia.
Qed.

Theorem scaling_exists W H lw lh :
  dim_ok W -> dim_ok H -> dim_ok lw -> dim_ok lh ->
  exists k : scaling W H lw lh, scaling_ok k.
Proof.
  intros HW HH Hlw Hlh.
  destruct (scale_factor_spec W H lw lh HW HH Hlw Hlh)
    as (a & b & s & _ & _ & Es & _ & Ns & Uw & Uh & L).
  destruct (scaled_dim_value s lw Ns Hlw) as (pw & nw & Epw & Enw & Hnw & Fw & Vw).
  destruct (scaled_dim_value s lh Ns Hlh) as (ph & nh & Eph & Enh & Hnh & Fh & Vh).
  exists (mkScaling W H lw lh s pw ph nw nh). unfold scaling_ok. simpl.
  split; [exact Es|].
  split; [unfold scaled_size; rewrite Epw; simpl; rewrite Enw; simpl;
          rewrite Eph; simpl; rewrite Enh; reflexivity|].
  split; [exact Hnw|]. split; [exact Hnh|].
  split; [eapply normal_positive; exact Ns|].
  repeat split; try tauto.
Qed.

(** Tactic: expose the numeric constants and name the rational atoms. *)
Ltac scaling_atoms k HW HH Hlw Hlh :=
  let QW := fresh "QW" in let QH := fresh "QH" in
  let Qlw := fresh "Qlw" in let Qlh := fresh "Qlh" in
  pose proof (dim_Q _ HW) as QW; pose proof (dim_Q _ HH) as QH;
  pose proof (dim_Q _ Hlw) as Qlw; pose proof (dim_Q _ Hlh) as Qlh;
  rewrite lit_0_8_value in *; unfold u in *;
  change (2 ^ 53)%positive with 9007199254740992%positive in *.

Section Facts.

Variables W H lw lh : Z.
Hypothesis HW : dim_ok W.
Hypothesis HH : dim_ok H.
Hypothesis Hlw : dim_ok lw.
Hypothesis Hlh : dim_ok lh.
Variables (s : float) (nw nh : Z).
Hypothesis Es : scale_factor W H lw lh = Ok s.
Hypothesis En : scaled_size s lw lh = Ok (nw, nh).

Lemma scaling_here :
  exists k : scaling W H lw lh,
    scaling_ok k /\ sc_scale k = s /\ sc_nw k = nw /\ sc_nh k = nh.
Proof.
  destruct (scaling_exists W H lw lh HW HH Hlw Hlh) as [k Hk].
  exists k. split; [exact Hk|].
  destruct Hk as (Es' & En' & _).
  rewrite Es in Es'. injection Es' as E1.
  rewrite <- E1, En in En'. injection En' as E2 E3. auto.
Qed.

(** A logo that exceeds the canvas shrinks to at most 4/5 of its own size. *)
Lemma scaled_shrinks :
  W < lw \/ H < lh -> 5 * nw <= 4 * lw /\ 5 * nh <= 4 * lh.
Proof.
  intros Hex.
  destruct scaling_here as (k & Hk & <- & <- & <-).
  destruct Hk as (_ & _ & _ & _ & Hs & Uw & Uh & _ & Fw & Fh & Vw & Vh).
  cbv zeta in *. scaling_atoms k HW HH Hlw Hlh.
  set (vs := to_Q (sc_scale k)) in *.
  set (vw := to_Q (sc_pw k)) in *. set (vh := to_Q (sc_ph k)) in *.
  set (qn := inject_Z (sc_nw k)) in *. set (qm := inject_Z (sc_nh k)) in *.
  assert (Hvs : (vs <= (1 + (1 # 9007199254740992)) * (1 + (1 # 9007199254740992))
                         * (7205759403792794 # 9007199254740992))%Q).
  { destruct Hex as [Hex|Hex].
    - apply (Qmult_le_r _ _ (inject_Z lw)); [lra|].
      assert (inject_Z W <= inject_Z lw)%Q by (rewrite <- Zle_Qle; lia). lra.
    - apply (Qmult_le_r _ _ (inject_Z lh)); [lra|].
      assert (inject_Z H <= inject_Z lh)%Q by (rewrite <- Zle_Qle; lia). lra. }
  assert (Pw : (inject_Z lw * vs <= inject_Z lw *
            ((1 + (1 # 9007199254740992)) * (1 + (1 # 9007199254740992))
             * (7205759403792794 # 9007199254740992)))%Q).
  { rewrite !(Qmult_comm (inject_Z lw)). apply Qmult_le_compat_r; lra. }
  assert (Ph : (inject_Z lh * vs <= inject_Z lh *
            ((1 + (1 # 9007199254740992)) * (1 + (1 # 9007199254740992))
             * (7205759403792794 # 9007199254740992)))%Q).
  { rewrite !(Qmult_comm (inject_Z lh)). apply Qmult_le_compat_r; lra. }
  assert (5 * sc_nw k < 4 * lw + 1 /\ 5 * sc_nh k < 4 * lh + 1); [|lia].
  rewrite !Zlt_Qlt, !inject_Z_plus, !inject_Z_mult.
  change (inject_Z 5) with (5 # 1)%Q. change (inject_Z 4) with (4 # 1)%Q.
  change (inject_Z 1) with 1%Q. fold qn qm.
  split; lra.
Qed.

(** Along at least one axis the scaled logo comes within a pixel of 4/5 of
    the canvas. *)
Lemma scaled_fills :
  4 * W - 5 <= 5 * nw \/ 4 * H - 5 <= 5 * nh.
Proof.
  destruct scaling_here as (k & Hk & <- & <- & <-).
  destruct Hk as (_ & _ & _ & _ & Hs & Uw & Uh & L & Fw & Fh & Vw & Vh).
  cbv zeta in *. scaling_atoms k HW HH Hlw Hlh.
  set (vs := to_Q (sc_scale k)) in *.
  set (vw := to_Q (sc_pw k)) in *. set (vh := to_Q (sc_ph k)) in *.
  destruct L as [L|L]; [left|right].
  - assert (4 * W < 5 * sc_nw k + 6); [|lia].
    rewrite Zlt_Qlt, inject_Z_plus, !inject_Z_mult.
    change (inject_Z 5) with (5 # 1)%Q. change (inject_Z 4) with (4 # 1)%Q.
    change (inject_Z 6) with (6 # 1)%Q.
    setoid_replace (inject_Z lw * vs)%Q with (vs * inject_Z lw)%Q
      using relation Qeq in Vw by ring.
    lra.
  - assert (4 * H < 5 * sc_nh k + 6); [|lia].
    rewrite Zlt_Qlt, inject_Z_plus, !inject_Z_mult.
    change (inject_Z 5) with (5 # 1)%Q. change (inject_Z 4) with (4 # 1)%Q.
    change (inject_Z 6) with (6 # 1)%Q.
    setoid_replace (inject_Z lh * vs)%Q with (vs * inject_Z lh)%Q
      using relation Qeq in Vh by ring.
    lra.
Qed.

(** The two dimensions are scaled alike: cross-multiplied, they differ by
    less than one source pixel. *)
Lemma scaled_aspect :
  W * lh <= 2 ^ 51 ->
  nw * lh - nh * lw <= lw /\ nh * lw - nw * lh <= lh.
Proof.
  intros Hprod.
  destruct scaling_here as (k & Hk & <- & <- & <-).
  destruct Hk as (_ & _ & _ & _ & Hs & Uw & Uh & _ & Fw & Fh & Vw & Vh).
  cbv zeta in *. scaling_atoms k HW HH Hlw Hlh.
  set (vs := to_Q (sc_scale k)) in *.
  set (vw := to_Q (sc_pw k)) in *. set (vh := to_Q (sc_ph k)) in *.
  set (qn := inject_Z (sc_nw k)) in *. set (qm := inject_Z (sc_nh k)) in *.
  set (ql := inject_Z lw) in *. set (qh := inject_Z lh) in *.
  set (qW := inject_Z W) in *.
  assert (HP : (qW * qh <= 2251799813685248 # 1)%Q).
  { subst qW qh. rewrite <- inject_Z_mult.
    change (2251799813685248 # 1)%Q with (inject_Z (2 ^ 51)).
    rewrite <- Zle_Qle. exact Hprod. }
  assert (T : (vs * ql * qh <=
               (1 + (1 # 9007199254740992)) * (1 + (1 # 9007199254740992))
               * (7205759403792794 # 9007199254740992) * qW * qh)%Q)
    by (apply Qmult_le_compat_r; lra).
  assert (A1 : (qn * qh <= vw * qh)%Q) by (apply Qmult_le_compat_r; lra).
  assert (A2 : (vw * qh <= (1 + (1 # 9007199254740992)) * (ql * vs) * qh)%Q)
    by (apply Qmult_le_compat_r; lra).
  assert (A3 : ((1 - (1 # 9007199254740992)) * (ql * vs) * qh <= vw * qh)%Q)
    by (apply Qmult_le_compat_r; lra).
  assert (A4 : (vw * qh < (qn + 1) * qh)%Q) by (apply Qmult_lt_compat_r; lra).
  assert (B1 : (qm * ql <= vh * ql)%Q) by (apply Qmult_le_compat_r; lra).
  assert (B2 : (vh * ql <= (1 + (1 # 9007199254740992)) * (qh * vs) * ql)%Q)
    by (apply Qmult_le_compat_r; lra).
  assert (B3 : ((1 - (1 # 9007199254740992)) * (qh * vs) * ql <= vh * ql)%Q)
    by (apply Qmult_le_compat_r; lra).
  assert (B4 : (vh * ql < (qm + 1) * ql)%Q) by (apply Qmult_lt_compat_r; lra).
  assert (sc_nw k * lh - sc_nh k * lw < lw + 1 /\
          sc_nh k * lw - sc_nw k * lh < lh + 1); [|lia].
  assert (forall a b c : Z, (a - b < c <-> a < c + b)) as Hsub by (intros; lia).
  rewrite !Hsub, !Zlt_Qlt, !inject_Z_plus, !inject_Z_mult.
  change (inject_Z 1) with 1%Q. fold qn qm ql qh.
  split; lra.
Qed.

(** Neither scaled dimension truncates to 0 unless the logo is far more
    elongated than the canvas. *)
Lemma scaled_positive :
  2 <= W -> 2 <= H ->
  13 * lh <= 10 * (H * lw) -> 13 * lw <= 10 * (W * lh) ->
  1 <= nw /\ 1 <= nh.
Proof.
  intros W2 H2 R1 R2.
  destruct scaling_here as (k & Hk & <- & <- & <-).
  destruct Hk as (_ & _ & _ & _ & Hs & Uw & Uh & L & Fw & Fh & Vw & Vh).
  cbv zeta in *. scaling_atoms k HW HH Hlw Hlh.
  set (vs := to_Q (sc_scale k)) in *.
  set (vw := to_Q (sc_pw k)) in *. set (vh := to_Q (sc_ph k)) in *.
  set (qn := inject_Z (sc_nw k)) in *. set (qm := inject_Z (sc_nh k)) in *.
  set (ql := inject_Z lw) in *. set (qh := inject_Z lh) in *.
  set (qW := inject_Z W) in *. set (qH := inject_Z H) in *.
  assert (QW2 : (2 # 1 <= qW)%Q)
    by (subst qW; change (2 # 1)%Q with (inject_Z 2); rewrite <- Zle_Qle; lia).
  assert (QH2 : (2 # 1 <= qH)%Q)
    by (subst qH; change (2 # 1)%Q with (inject_Z 2); rewrite <- Zle_Qle; lia).
  rewrite Zle_Qle, !inject_Z_mult in R1, R2.
  change (inject_Z 13) with (13 # 1)%Q in R1, R2.
  change (inject_Z 10) with (10 # 1)%Q in R1, R2.
  fold ql qh qW qH in R1, R2.
  (* both products l * s are at least 1.03 *)
  assert (Pw : ((103 # 100) <= ql * vs)%Q).
  { destruct L as [L|L]; [lra|].
    apply (Qmult_le_r _ _ qh); [lra|].
    assert ((1 - (1 # 9007199254740992)) * (1 - (1 # 9007199254740992))
            * (7205759403792794 # 9007199254740992) * qH * ql <= vs * qh * ql)%Q
      by (apply Qmult_le_compat_r; lra).
    lra. }
  assert (Ph : ((103 # 100) <= qh * vs)%Q).
  { destruct L as [L|L]; [|lra].
    apply (Qmult_le_r _ _ ql); [lra|].
    assert ((1 - (1 # 9007199254740992)) * (1 - (1 # 9007199254740992))
            * (7205759403792794 # 9007199254740992) * qW * qh <= vs * ql * qh)%Q
      by (apply Qmult_le_compat_r; lra).
    lra. }
  assert (0 < sc_nw k /\ 0 < sc_nh k); [|lia].
  rewrite !Zlt_Qlt. change (inject_Z 0) with 0%Q. fold qn qm.
  split; lra.
Qed.

End Facts.

End ScaledSize.

(** * Further properties of the script *)

Module Extras.
Import PIL Script Encoding Pipeline Examples.

(** ** Effects of [convert_logo_to_raw] *)

(** Where the conversion leaves the world, outcome by outcome. *)
Lemma convert_world decode lanczos input_path output_path width height w :
  let rw := convert_logo_to_raw decode lanczos input_path output_path width height w in
  match fst rw with
  | Ok _ => exists data, files (snd rw) = <[output_path := data]> (files w)
  | Raise _ => snd rw = w
  end.
Proof.
  cbv zeta. rewrite convert_unfold.
  destruct (new (width, height) white) as [bg|e]; [|reflexivity].
  destruct (open decode (files w) input_path) as [logo|e]; [|reflexivity].
  destruct (compose lanczos bg logo width height) as [c|e]; [|reflexivity].
  simpl. eauto.
Qed.


(** X2.  On success the script prints five lines after whatever was printed
    before; the file size it reports is the real length of the file it
    wrote, and the logo size and position it reports are the ones the logo
    was pasted with. *)
Theorem convert_summary decode lanczos input_path output_path width height w w' :
  convert_logo_to_raw decode lanczos input_path output_path width height w
    = (Ok tt, w') ->
  exists bg logo c bytes,
    new (width, height) white = Ok bg /\
    open decode (files w) input_path = Ok logo /\
    compose lanczos bg logo width height = Ok c /\
    files w' !! output_path = Some bytes /\
    stdout w' = stdout w ++
      [Saved output_path; Dimensions width height;
       FileSize (Z.of_nat (length bytes));
       LogoSize (fst (logo_size c)) (snd (logo_size c));
       LogoPosition (fst (position c)) (snd (position c))].
Proof.
  intros Hrun. pose proof Hrun as Hrun'. rewrite convert_unfold in Hrun'.
  destruct (new (width, height) white) as [bg|e] eqn:Hbg; [|discriminate].
  destruct (open decode (files w) input_path) as [logo|e] eqn:Hopen; [|discriminate].
  destruct (compose lanczos bg logo width height) as [c|e] eqn:Hc; [|discriminate].
  injection Hrun' as <-. simpl.
  exists bg, logo, c, (raster (pixel (canvas c)) width height).
  apply new_white in Hbg as (HW & HH & ->).
  rewrite lookup_insert_eq, raster_length by assumption. auto.
Qed.

Lemma convert_summary_witness :
  exists w',
    convert_logo_to_raw toy_decode nearest "in" "out" 2 2 (only_input "in" [137; 1])
      = (Ok tt, w') /\
    stdout w' = [Saved "out"; Dimensions 2 2; FileSize 16; LogoSize 1 1;
                 LogoPosition 0 0].
Proof.
  destruct (convert_summary toy_decode nearest "in" "out" 2 2
              (only_input "in" [137; 1])
              (snd (convert_logo_to_raw toy_decode nearest "in" "out" 2 2
                      (only_input "in" [137; 1]))) eq_refl)
    as (bg & logo & c & bytes & Hbg & Hopen & Hc & Hf & Hout).
  eexists. split; [reflexivity|].
  vm_compute in Hf. injection Hf as <-.
  vm_compute in Hbg. injection Hbg as <-.
  vm_compute in Hopen. injection Hopen as <-.
  vm_compute in Hc. injection Hc as <-.
  exact Hout.
Defined.

(** X3.  A negative canvas width or height is refused by [Image.new] with
    [ValueError] before the input is looked at, whether or not it exists. *)
Theorem negative_canvas_raises decode lanczos input_path output_path width height w :
  width < 0 \/ height < 0 ->
  convert_logo_to_raw decode lanczos input_path output_path width height w
    = (Raise ValueError, w).
Proof.
  intros Hneg. unfold convert_logo_to_raw, new.
  destruct (Z.ltb_spec width 0), (Z.ltb_spec height 0); simpl; try reflexivity.
  lia.
Qed.

Lemma negative_canvas_raises_witness :
  convert_logo_to_raw toy_decode nearest "missing" "out" (-1) 5 (mkWorld ∅ [])
    = (Raise ValueError, mkWorld ∅ []).
Proof.
  apply (negative_canvas_raises toy_decode nearest "missing" "out" (-1) 5).
  left. lia.
Defined.

(** ** An empty canvas *)

Lemma truediv_zero l : 0 < l -> PyFloat.truediv 0 l = Ok (S754_zero false).
Proof. intros Hl. destruct l; try lia. reflexivity. Qed.

Lemma truediv_canvas n l :
  0 <= n < 2 ^ 31 -> Scaling.dim_ok l ->
  exists f, PyFloat.truediv n l = Ok f /\
            (f = S754_zero false \/ Rounding.normal (-83) (-21) f).
Proof.
  intros Hn Hl. destruct (Z.eq_dec n 0) as [->|Hne].
  - exists (S754_zero false). split; [apply truediv_zero, Hl|auto].
  - destruct (Rounding.truediv_normal n l ltac:(lia) Hl) as (f & Ef & Nf & _).
    exists f. auto.
Qed.

Lemma min_with_zero a b :
  (a = S754_zero false \/ Rounding.normal (-83) (-21) a) ->
  (b = S754_zero false \/ Rounding.normal (-83) (-21) b) ->
  a = S754_zero false \/ b = S754_zero false ->
  PyFloat.min a b = S754_zero false.
Proof.
  intros [->|(ma & ea & -> & _)] [->|(mb & eb & -> & _)] [E|E];
    try discriminate E; reflexivity.
Qed.

Lemma int_mul_zero l :
  Scaling.dim_ok l ->
  PyFloat.int_mul l (S754_zero false) = Ok (S754_zero false).
Proof.
  intros Hl. destruct (Rounding.of_int_exact l Hl) as (f & Ef & (m & e & -> & _) & _).
  unfold PyFloat.int_mul. rewrite Ef. reflexivity.
Qed.

(** On a canvas with a zero side the scale factor is 0.0 and both scaled
    dimensions are 0. *)
Lemma zero_canvas_scale width height lw lh :
  0 <= width < 2 ^ 31 -> 0 <= height < 2 ^ 31 ->
  width = 0 \/ height = 0 ->
  Scaling.dim_ok lw -> Scaling.dim_ok lh ->
  scale_factor width height lw lh = Ok (S754_zero false) /\
  scaled_size (S754_zero false) lw lh = Ok (0, 0).
Proof.
  intros HW HH Hz Hlw Hlh.
  destruct (truediv_canvas width lw HW Hlw) as (a & Ea & Ha).
  destruct (truediv_canvas height lh HH Hlh) as (b & Eb & Hb).
  assert (Hza : width = 0 -> a = S754_zero false).
  { intros ->. rewrite truediv_zero in Ea by apply Hlw. congruence. }
  assert (Hzb : height = 0 -> b = S754_zero false).
  { intros ->. rewrite truediv_zero in Eb by apply Hlh. congruence. }
  split.
  - unfold scale_factor. rewrite Ea, Eb. simpl.
    rewrite (min_with_zero a b Ha Hb) by tauto. reflexivity.
  - unfold scaled_size. rewrite !int_mul_zero by assumption. reflexivity.
Qed.

(** X4.  On a canvas of width 0 or height 0 no empty file is produced: any
    decoded logo exceeds such a canvas, its scale factor is 0.0, [resize] is
    asked for 0 x 0 and raises [ValueError], and the world is unchanged. *)
Theorem empty_canvas_raises decode lanczos input_path output_path width height w logo :
  0 <= width < 2 ^ 31 -> 0 <= height < 2 ^ 31 ->
  width = 0 \/ height = 0 ->
  open decode (files w) input_path = Ok logo ->
  Scaling.dim_ok (fst (size (ensure_RGBA logo))) ->
  Scaling.dim_ok (snd (size (ensure_RGBA logo))) ->
  convert_logo_to_raw decode lanczos input_path output_path width height w
    = (Raise ValueError, w).
Proof.
  intros HW HH Hz Hopen Hlw Hlh.
  pose proof (convert_decoded decode lanczos input_path output_path width height
                w logo ltac:(lia) ltac:(lia) Hopen) as Hrun.
  destruct (zero_canvas_scale width height _ _ HW HH Hz Hlw Hlh) as [Es En].
  unfold Scaling.dim_ok in *.
  rewrite scale_logo_exceeds in Hrun by lia.
  rewrite Es in Hrun. simpl in Hrun. rewrite En in Hrun. simpl in Hrun.
  rewrite resize_zero in Hrun; [exact Hrun| |lia].
  intros E. rewrite E in Hlw. simpl in Hlw. lia.
Qed.

Lemma empty_canvas_raises_witness :
  convert_logo_to_raw toy_decode nearest "in" "out" 0 7 (only_input "in" [137; 3])
    = (Raise ValueError, only_input "in" [137; 3]).
Proof.
  apply (empty_canvas_raises toy_decode nearest "in" "out" 0 7
           (only_input "in" [137; 3]) (ImRGBA (solid 3 3 (255, 0, 0, 255))));
    try reflexivity; try (simpl; unfold Scaling.dim_ok; lia); auto.
Defined.

(** ** Placement and scaling *)

(** X5.  The logo is centred: on each axis the margin after the logo equals
    the margin before it, or exceeds it by one pixel when the free space is
    odd. *)
Theorem logo_centred lanczos bg logo width height c :
  compose lanczos bg logo width height = Ok c ->
  let '(x, y) := position c in
  let '(lw, lh) := logo_size c in
  0 <= (width - (x + lw)) - x <= 1 /\
  0 <= (height - (y + lh)) - y <= 1.
Proof.
  intros Hc. destruct (compose_inv lanczos _ _ _ _ _ Hc) as (placed & _ & Hs & Hp & _).
  rewrite Hp, Hs. destruct (size placed) as [lw lh]. simpl.
  pose proof (Z.div_mod (width - lw) 2 ltac:(lia)).
  pose proof (Z.mod_pos_bound (width - lw) 2 ltac:(lia)).
  pose proof (Z.div_mod (height - lh) 2 ltac:(lia)).
  pose proof (Z.mod_pos_bound (height - lh) 2 ltac:(lia)).
  lia.
Qed.

(** A 2 x 2 logo on a 5 x 4 canvas: margins 1 and 2 across, 1 and 1 down. *)
Lemma logo_centred_witness :
  exists c,
    compose nearest (solid 5 4 white) cut_corner 5 4 = Ok c /\
    position c = (1, 1) /\ logo_size c = (2, 2).
Proof.
  assert (Hc : exists c, compose nearest (solid 5 4 white) cut_corner 5 4 = Ok c /\
                         position c = (1, 1) /\ logo_size c = (2, 2)).
  { eexists. repeat split; vm_compute; reflexivity. }
  destruct Hc as (c & Hc & Hp & Hs). exists c.
  pose proof (logo_centred nearest (solid 5 4 white) cut_corner 5 4 c Hc) as H.
  rewrite Hp, Hs in H. auto.
Defined.

(** The size of a resized logo is the scaled size. *)
Lemma resized_size lanczos logo placed width height :
  Scaling.dim_ok width -> Scaling.dim_ok height ->
  Scaling.dim_ok (fst (size logo)) -> Scaling.dim_ok (snd (size logo)) ->
  width < fst (size logo) \/ height < snd (size logo) ->
  scale_logo lanczos logo width height = Ok placed ->
  exists s,
    scale_factor width height (fst (size logo)) (snd (size logo)) = Ok s /\
    scaled_size s (fst (size logo)) (snd (size logo)) = Ok (size placed).
Proof.
  intros HW HH Hlw Hlh Hex Hplaced.
  destruct (Scaling.scaled_size_spec _ _ _ _ HW HH Hlw Hlh)
    as (s & nw & nh & Es & En & _).
  pose proof Hplaced as Hp. rewrite scale_logo_exceeds in Hp by exact Hex.
  rewrite Es in Hp. simpl in Hp. rewrite En in Hp. simpl in Hp.
  apply resize_size in Hp. exists s. rewrite Hp. auto.
Qed.

(** X6.  Scaling only ever shrinks: a logo that exceeds the canvas comes
    out at most 4/5 of its own width and of its own height. *)
Theorem resized_logo_shrinks lanczos logo placed width height :
  Scaling.dim_ok width -> Scaling.dim_ok height ->
  Scaling.dim_ok (fst (size logo)) -> Scaling.dim_ok (snd (size logo)) ->
  width < fst (size logo) \/ height < snd (size logo) ->
  scale_logo lanczos logo width height = Ok placed ->
  5 * fst (size placed) <= 4 * fst (size logo) /\
  5 * snd (size placed) <= 4 * snd (size logo).
Proof.
  intros HW HH Hlw Hlh Hex Hplaced.
  destruct (resized_size _ _ _ _ _ HW HH Hlw Hlh Hex Hplaced) as (s & Es & En).
  destruct (size placed) as [nw nh]. simpl.
  exact (ScaledSize.scaled_shrinks _ _ _ _ HW HH Hlw Hlh s nw nh Es En Hex).
Qed.

(** X7.  The resized logo uses the room the 80% rule leaves: along at least
    one axis it is within one pixel of 4/5 of the canvas. *)
Theorem resized_logo_fills lanczos logo placed width height :
  Scaling.dim_ok width -> Scaling.dim_ok height ->
  Scaling.dim_ok (fst (size logo)) -> Scaling.dim_ok (snd (size logo)) ->
  width < fst (size logo) \/ height < snd (size logo) ->
  scale_logo lanczos logo width height = Ok placed ->
  4 * width - 5 <= 5 * fst (size placed) \/
  4 * height - 5 <= 5 * snd (size placed).
Proof.
  intros HW HH Hlw Hlh Hex Hplaced.
  destruct (resized_size _ _ _ _ _ HW HH Hlw Hlh Hex Hplaced) as (s & Es & En).
  destruct (size placed) as [nw nh]. simpl.
  exact (ScaledSize.scaled_fills _ _ _ _ HW HH Hlw Hlh s nw nh Es En).
Qed.

(** X8.  The aspect ratio is kept up to truncation: cross-multiplied, the
    new and the old dimensions differ by at most one source dimension, i.e.
    the two axes are scaled by factors less than one pixel apart. *)
Theorem resized_logo_keeps_aspect lanczos logo placed width height :
  Scaling.dim_ok width -> Scaling.dim_ok height ->
  Scaling.dim_ok (fst (size logo)) -> Scaling.dim_ok (snd (size logo)) ->
  width < fst (size logo) \/ height < snd (size logo) ->
  scale_logo lanczos logo width height = Ok placed ->
  width * snd (size logo) <= 2 ^ 51 ->
  fst (size placed) * snd (size logo) - snd (size placed) * fst (size logo)
    <= fst (size logo) /\
  snd (size placed) * fst (size logo) - fst (size placed) * snd (size logo)
    <= snd (size logo).
Proof.
  intros HW HH Hlw Hlh Hex Hplaced Hprod.
  destruct (resized_size _ _ _ _ _ HW HH Hlw Hlh Hex Hplaced) as (s & Es & En).
  destruct (size placed) as [nw nh]. simpl.
  exact (ScaledSize.scaled_aspect _ _ _ _ HW HH Hlw Hlh s nw nh Es En Hprod).
Qed.

(** A 4000 x 3000 logo on the default canvas becomes 1280 x 960. *)
Lemma resized_example :
  exists placed,
    scale_logo nearest (solid 4000 3000 (9, 9, 9, 255)) 1920 1200 = Ok placed /\
    size placed = (1280, 960).
Proof. eexists. split; vm_compute; reflexivity. Qed.

Lemma resized_logo_shrinks_witness :
  exists placed,
    scale_logo nearest (solid 4000 3000 (9, 9, 9, 255)) 1920 1200 = Ok placed /\
    5 * fst (size placed) <= 4 * 4000 /\ 5 * snd (size placed) <= 4 * 3000.
Proof.
  destruct resized_example as (placed & Hp & Hs). exists placed.
  split; [exact Hp|].
  apply (resized_logo_shrinks nearest (solid 4000 3000 (9, 9, 9, 255)) placed
           1920 1200); try exact Hp; simpl; unfold Scaling.dim_ok; lia.
Defined.

Lemma resized_logo_fills_witness :
  exists placed,
    scale_logo nearest (solid 4000 3000 (9, 9, 9, 255)) 1920 1200 = Ok placed /\
    (4 * 1920 - 5 <= 5 * fst (size placed) \/
     4 * 1200 - 5 <= 5 * snd (size placed)).
Proof.
  destruct resized_example as (placed & Hp & Hs). exists placed.
  split; [exact Hp|].
  apply (resized_logo_fills nearest (solid 4000 3000 (9, 9, 9, 255)) placed
           1920 1200); try exact Hp; simpl; unfold Scaling.dim_ok; lia.
Defined.

Lemma resized_logo_keeps_aspect_witness :
  exists placed,
    scale_logo nearest (solid 4000 3000 (9, 9, 9, 255)) 1920 1200 = Ok placed /\
    fst (size placed) * 3000 - snd (size placed) * 4000 <= 4000 /\
    snd (size placed) * 4000 - fst (size placed) * 3000 <= 3000.
Proof.
  destruct resized_example as (placed & Hp & Hs). exists placed.
  split; [exact Hp|].
  apply (resized_logo_keeps_aspect nearest (solid 4000 3000 (9, 9, 9, 255))
           placed 1920 1200); try exact Hp; simpl; unfold Scaling.dim_ok; lia.
Defined.

(** ** When the conversion succeeds *)





(** ** Pixels under the logo *)

(** What a successful run leaves under the logo pixel (i, j). *)
Lemma under_logo decode lanczos input_path output_path width height w w' :
  convert_logo_to_raw decode lanczos input_path output_path width height w
    = (Ok tt, w') ->
  exists logo placed c bytes,
    open decode (files w) input_path = Ok logo /\
    scale_logo lanczos (ensure_RGBA logo) width height = Ok placed /\
    logo_size c = size placed /\
    files w' !! output_path = Some bytes /\
    forall i j,
      0 <= i < fst (size placed) -> 0 <= j < snd (size placed) ->
      let col := fst (position c) + i in
      let row := snd (position c) + j in
      pixel (canvas c) col row =
        (let '(r, g, b, a) := pixel placed i j in
         (blend a 255 r, blend a 255 g, blend a 255 b)) /\
      (0 <= row < height -> 0 <= col < width ->
       u32_at bytes (offset width col row) =
         let '(r, g, b) := pixel (canvas c) col row in
         Some (r * 65536 + g * 256 + b)).
Proof.
  intros H. destruct (convert_Ok_inv _ _ _ _ _ _ _ _ H)
    as (bg & logo & c & Hbg & Hopen & Hc & Hf).
  destruct (compose_inv lanczos _ _ _ _ _ Hc) as (placed & Hp & Hs & Hpos & _).
  exists logo, placed, c, (raster (pixel (canvas c)) width height).
  split; [exact Hopen|]. split; [exact Hp|]. split; [exact Hs|].
  split; [rewrite Hf; apply lookup_insert_eq|].
  intros i j Hi Hj col row.
  pose proof (new_white _ _ _ Hbg) as (_ & _ & Ebg).
  assert (Hin : in_footprint c col row = true).
  { unfold in_footprint. subst col row. rewrite Hs.
    destruct (position c) as [x y], (size placed) as [lw lh]. simpl in *.
    destruct (Z.leb_spec x (x + i)), (Z.ltb_spec (x + i) (x + lw)),
      (Z.leb_spec y (y + j)), (Z.ltb_spec (y + j) (y + lh));
      try lia; reflexivity. }
  split.
  - rewrite (canvas_inside lanczos _ _ _ _ _ _ _ _ Hc Hp Hin), Ebg. simpl.
    subst col row.
    replace (fst (position c) + i - fst (position c)) with i by lia.
    replace (snd (position c) + j - snd (position c)) with j by lia.
    reflexivity.
  - intros Hrow Hcol. apply raster_u32; assumption.
Qed.



(** Pillow's division by 255 is monotone and exact on multiples. *)
Lemma div255_mono t1 t2 :
  0 <= t1 <= t2 ->
  Z.shiftr (Z.shiftr t1 8 + t1) 8 <= Z.shiftr (Z.shiftr t2 8 + t2) 8.
Proof.
  intros Ht. rewrite !Z.shiftr_div_pow2 by lia. change (2 ^ 8) with 256.
  apply Z.div_le_mono; [lia|].
  pose proof (Z.div_le_mono t1 t2 256 ltac:(lia) ltac:(lia)). lia.
Qed.

Lemma div255_exact k :
  0 <= k <= 255 -> Z.shiftr (Z.shiftr (255 * k + 128) 8 + (255 * k + 128)) 8 = k.
Proof.
  intros Hk. rewrite !Z.shiftr_div_pow2 by lia. change (2 ^ 8) with 256.
  Z.div_mod_to_equations. lia.
Qed.

Lemma blend_between m a b :
  byte_ok m -> byte_ok a -> byte_ok b ->
  Z.min a b <= blend m a b <= Z.max a b.
Proof.
  unfold byte_ok, blend. intros Hm Ha Hb.
  set (t := a * (255 - m) + b * m + 128).
  assert (Hlo : 255 * Z.min a b + 128 <= t) by (subst t; nia).
  assert (Hhi : t <= 255 * Z.max a b + 128) by (subst t; nia).
  pose proof (div255_mono (255 * Z.min a b + 128) t ltac:(lia)) as M1.
  pose proof (div255_mono t (255 * Z.max a b + 128) ltac:(lia)) as M2.
  rewrite div255_exact in M1, M2 by lia.
  rewrite land_255, Z.mod_small; lia.
Qed.



(** X17.  An RGB logo that fits the canvas is copied into it unchanged: the
    pixel written at the logo's offset plus (i, j) is the source pixel
    (i, j), with no trace of blending. *)
Theorem rgb_logo_copied decode lanczos input_path output_path width height w w' im :
  convert_logo_to_raw decode lanczos input_path output_path width height w
    = (Ok tt, w') ->
  open decode (files w) input_path = Ok (ImRGB im) ->
  fst (size im) <= width -> snd (size im) <= height ->
  exists bytes,
    files w' !! output_path = Some bytes /\
    forall i j,
      0 <= i < fst (size im) -> 0 <= j < snd (size im) ->
      rgb_ok (pixel im i j) ->
      let col := (width - fst (size im)) / 2 + i in
      let row := (height - snd (size im)) / 2 + j in
      0 <= row < height -> 0 <= col < width ->
      u32_at bytes (offset width col row) =
        let '(r, g, b) := pixel im i j in Some (r * 65536 + g * 256 + b).
Proof.
  intros H Hopen Hw Hh.
  destruct (convert_Ok_inv _ _ _ _ _ _ _ _ H)
    as (bg & logo & c & Hbg & Hopen' & Hc & Hf).
  rewrite Hopen in Hopen'. injection Hopen' as <-.
  destruct (compose_inv lanczos _ _ _ _ _ Hc) as (placed & Hp & Hs & Hpos & _).
  rewrite scale_logo_fits in Hp by (simpl; assumption). injection Hp as <-.
  simpl in Hs, Hpos.
  exists (raster (pixel (canvas c)) width height).
  split; [rewrite Hf; apply lookup_insert_eq|].
  intros i j Hi Hj Hok col row Hrow Hcol.
  pose proof (new_white _ _ _ Hbg) as (_ & _ & Ebg).
  assert (Hin : in_footprint c col row = true).
  { unfold in_footprint. subst col row. rewrite Hs, Hpos.
    destruct (size im) as [lw lh]. simpl in *.
    set (x := (width - lw) / 2). set (y := (height - lh) / 2).
    destruct (Z.leb_spec x (x + i)), (Z.ltb_spec (x + i) (x + lw)),
      (Z.leb_spec y (y + j)), (Z.ltb_spec (y + j) (y + lh));
      try lia; reflexivity. }
  rewrite raster_u32 by assumption.
  rewrite (canvas_inside lanczos _ _ _ _ _ (ensure_RGBA (ImRGB im)) _ _ Hc
             ltac:(apply scale_logo_fits; simpl; assumption) Hin), Ebg.
  rewrite Hpos. simpl. subst col row.
  replace ((width - fst (size im)) / 2 + i - (width - fst (size im)) / 2) with i by lia.
  replace ((height - snd (size im)) / 2 + j - (height - snd (size im)) / 2) with j by lia.
  destruct (pixel im i j) as [[r g] b]. destruct Hok as (Hr & Hg & Hb).
  rewrite !blend_opaque by assumption. reflexivity.
Qed.

Lemma rgb_logo_copied_witness :
  exists w' bytes,
    convert_logo_to_raw
      (always (ImRGB (mkImage (1, 1) (fun _ _ => (10, 20, 30))))) nearest
      "in" "out" 3 3 (only_input "in" []) = (Ok tt, w') /\
    files w' !! "out" = Some bytes /\
    u32_at bytes (offset 3 1 1) = Some (10 * 65536 + 20 * 256 + 30).
Proof.
  destruct (rgb_logo_copied
              (always (ImRGB (mkImage (1, 1) (fun _ _ => (10, 20, 30))))) nearest
              "in" "out" 3 3 (only_input "in" [])
              (snd (convert_logo_to_raw
                      (always (ImRGB (mkImage (1, 1) (fun _ _ => (10, 20, 30)))))
                      nearest "in" "out" 3 3 (only_input "in" [])))
              (mkImage (1, 1) (fun _ _ => (10, 20, 30)))
              eq_refl eq_refl ltac:(simpl; lia) ltac:(simpl; lia))
    as (bytes & Hf & Hpx).
  eexists _, bytes. split; [reflexivity|]. split; [exact Hf|].
  specialize (Hpx 0 0 ltac:(simpl; lia) ltac:(simpl; lia)
                ltac:(simpl; unfold byte_ok; lia)).
  refine (Hpx _ _); vm_compute; split; congruence.
Defined.

(** ** [main] *)

(** The two paths [main] works with. *)
Definition main_input (script_dir : string) : string :=
  os_path_join script_dir "arceos.png".
Definition main_output (script_dir : string) : string :=
  os_path_join script_dir "logo.raw".

Lemma main_paths_differ script_dir : main_input script_dir <> main_output script_dir.
Proof.
  intros E. apply Claims.os_path_join_inj in E; [discriminate|reflexivity|reflexivity].
Qed.

Lemma main_unfold decode lanczos script_dir w :
  main decode lanczos script_dir w =
  if bool_decide (files w !! main_input script_dir = None) then
    (Exit 1, mkWorld (files w) (stdout w ++ [InputNotFound (main_input script_dir)]))
  else
    let rw := convert_logo_to_raw decode lanczos (main_input script_dir)
                (main_output script_dir) 1920 1200 w in
    (match fst rw with Ok _ => Exit 0 | Raise e => Uncaught e end, snd rw).
Proof.
  unfold main, main_input, main_output.
  destruct (bool_decide _); [reflexivity|].
  destruct (convert_logo_to_raw _ _ _ _ _ _ _) as [[u|e] w']; reflexivity.
Qed.


(** X14.  [main] never modifies a file other than [logo.raw]; in
    particular it never overwrites its own input [arceos.png]. *)
Theorem main_writes_only_output decode lanczos script_dir w :
  (forall p, p <> main_output script_dir ->
     files (snd (main decode lanczos script_dir w)) !! p = files w !! p) /\
  files (snd (main decode lanczos script_dir w)) !! main_input script_dir
    = files w !! main_input script_dir.
Proof.
  assert (H : forall p, p <> main_output script_dir ->
     files (snd (main decode lanczos script_dir w)) !! p = files w !! p).
  { intros p Hp. rewrite main_unfold.
    destruct (bool_decide _); [reflexivity|]. cbv zeta. simpl.
    pose proof (convert_world decode lanczos (main_input script_dir)
                  (main_output script_dir) 1920 1200 w) as Hw.
    cbv zeta in Hw.
    destruct (fst (convert_logo_to_raw decode lanczos (main_input script_dir)
                     (main_output script_dir) 1920 1200 w)).
    - destruct Hw as [data ->]. apply lookup_insert_ne. congruence.
    - rewrite Hw. reflexivity. }
  split; [exact H|]. apply H, main_paths_differ.
Qed.

(** X15.  When [arceos.png] exists but is not an image the decoder accepts,
    [main] ends with an uncaught [UnidentifiedImageError]: nothing is
    printed and no file is created or changed. *)
Theorem main_undecodable decode lanczos script_dir w bytes :
  files w !! main_input script_dir = Some bytes ->
  decode bytes = None ->
  main decode lanczos script_dir w = (Uncaught UnidentifiedImageError, w).
Proof.
  intros Hf Hd. rewrite main_unfold.
  rewrite bool_decide_eq_false_2 by congruence. cbv zeta.
  rewrite convert_unfold. unfold open. rewrite Hf, Hd. reflexivity.
Qed.

Lemma main_undecodable_witness :
  main toy_decode nearest "/boot" (only_input "/boot/arceos.png" [1; 2; 3])
    = (Uncaught UnidentifiedImageError, only_input "/boot/arceos.png" [1; 2; 3]).
Proof.
  apply (main_undecodable toy_decode nearest "/boot"
           (only_input "/boot/arceos.png" [1; 2; 3]) [1; 2; 3]); reflexivity.
Defined.



End Extras.
